(** * Relation endpoints, relations and relation units of [mstate/relation.go]

    A shallow embedding of the [mstate] relation code: endpoint
    compatibility, relation keys, the life cycle of a relation, the scope
    and membership keys of a relation unit, and joining, departing and
    reading settings against the document store. *)

From Stdlib Require Import Ascii DecimalString.
From stdpp Require Import gmap strings list fin_maps sorting.

(** ** Go values and library functions used by the file *)

(** A Go [error] is its message; [nil] is [None] where an error is optional. *)
Definition error := string.

(** A call that returns [(value, error)]. *)
Inductive result (A : Type) : Type :=
| Ok (a : A)
| Err (e : error).
Arguments Ok {A} a.
Arguments Err {A} e.

(** A call that returns normally or panics with a value. *)
Inductive outcome (A : Type) : Type :=
| Return (a : A)
| Panic (v : string).
Arguments Return {A} a.
Arguments Panic {A} v.

Definition outcome_bind {A B} (m : outcome A) (k : A → outcome B) : outcome B :=
  match m with
  | Return a => k a
  | Panic v => Panic v
  end.

Notation "x ←! m ; k" := (outcome_bind m (fun x => k))
  (at level 100, m at next level, right associativity, only parsing).

(** The [%q] verb of [fmt] renders a string between two double quotes,
    with the characters in between escaped as [strconv.Quote] does.  The
    escaping is left abstract; the two delimiters are fixed. *)
Class Quoting := quote_body : string → string.

Definition dquote : ascii := Ascii.ascii_of_nat 34.

Definition quote `{!Quoting} (s : string) : string :=
  String dquote (quote_body s +:+ String dquote EmptyString).

(** [strings.Join]. *)
Fixpoint Join (elems : list string) (sep : string) : string :=
  match elems with
  | [] => EmptyString
  | [x] => x
  | x :: rest => x +:+ sep +:+ Join rest sep
  end.

(** [strings.Split] for a separator of one byte, the only kind this file
    passes: the pieces between the occurrences of [sep], never empty as a
    list. *)
Fixpoint Split (s : string) (sep : ascii) : list string :=
  match s with
  | EmptyString => [EmptyString]
  | String c s' =>
      if decide (c = sep) then EmptyString :: Split s' sep
      else match Split s' sep with
           | [] => [String c EmptyString]
           | p :: ps => String c p :: ps
           end
  end.

(** [strings.Contains] for a substring of one byte. *)
Fixpoint Contains (s : string) (c : ascii) : bool :=
  match s with
  | EmptyString => false
  | String c' s' => if decide (c' = c) then true else Contains s' c
  end.

(** [strconv.Itoa]. *)
Definition Itoa (n : Z) : string := NilZero.string_of_int (Z.to_int n).

(** [sort.Strings]: ascending byte-wise order.  The order is total and
    antisymmetric, so the sorted arrangement of a slice is unique and any
    sorting algorithm computes it. *)
Definition sort_Strings (names : list string) : list string :=
  merge_sort String.le names.

(** ** Roles *)

Definition RelationRole := string.

Definition RoleProvider : RelationRole := "provider".
Definition RoleRequirer : RelationRole := "requirer".
Definition RolePeer : RelationRole := "peer".

Definition valid_role (r : RelationRole) : Prop :=
  r = RoleProvider ∨ r = RoleRequirer ∨ r = RolePeer.

Definition counterpartRole `{!Quoting} (r : RelationRole) : outcome RelationRole :=
  if String.eqb r RoleProvider then Return RoleRequirer
  else if String.eqb r RoleRequirer then Return RoleProvider
  else if String.eqb r RolePeer then Return RolePeer
  else Panic ("unknown RelationRole: " +:+ quote r).

(** ** Endpoints *)

(** Modelled from the spec: [charm.RelationScope], whose declaration is in
    the [charm] package; a scope is global or container. *)
Definition RelationScope := string.
Definition ScopeGlobal : RelationScope := "global".
Definition ScopeContainer : RelationScope := "container".

Module RelationEndpoint.

Record t : Type := Build {
  ServiceName : string;
  Interface : string;
  RelationName : string;
  RelationRole : RelationRole;
  RelationScope : RelationScope;
}.

Definition CanRelateTo `{!Quoting} (e other : t) : outcome bool :=
  if negb (String.eqb (Interface e) (Interface other)) then Return false
  else if String.eqb (RelationRole e) RolePeer then Return false
  else r ←! counterpartRole (RelationRole e);
       Return (String.eqb r (RelationRole other)).

Definition String (e : t) : string :=
  ServiceName e +:+ ":" +:+ RelationName e.

End RelationEndpoint.

Definition relationKey (endpoints : list RelationEndpoint.t) : string :=
let names := foldl (fun names ep => (names ++ [RelationEndpoint.String ep])%list) [] endpoints in
Join (sort_Strings names) " ".

(** ** Documents and the store *)

(** Modelled from the spec: the [Life] type of the life-cycle code, which
    is not part of this file; a life is Alive, Dying or Dead and is ordered
    that way. *)
Inductive Life : Type := Alive | Dying | Dead.

Definition Life_rank (l : Life) : nat :=
  match l with Alive => 0 | Dying => 1 | Dead => 2 end.

Definition Life_le (a b : Life) : Prop := Life_rank a ≤ Life_rank b.

Module relationDoc.

Record t : Type := Build {
  Key : string;
  Id : Z;
  Endpoints : list RelationEndpoint.t;
  Life : Life;
}.

Definition with_Life l (d : t) : t :=
  {| Key := Key d; Id := Id d; Endpoints := Endpoints d; Life := l |}.

End relationDoc.

Module relationRefDoc.

Record t : Type := Build { Key : string }.

Definition UnitName (d : t) : string :=
  let parts := Split (Key d) "#" in
  default EmptyString (last parts).

End relationRefDoc.

(** A value of a settings map, [interface{}] in the source. *)
Inductive value : Type :=
| VString (s : string)
| VInt (n : Z)
| VBool (b : bool).

(** The collections of [State] this file reads and writes; each maps a
    document id to the document. *)
Module State.

Record t : Type := Build {
  relations : gmap string relationDoc.t;
  settings : gmap string (gmap string value);
  relationRefs : gmap string relationRefDoc.t;
}.

Definition with_relations (m : gmap string relationDoc.t) (st : t) : t :=
  {| relations := m; settings := settings st; relationRefs := relationRefs st |}.

Definition with_settings (m : gmap string (gmap string value)) (st : t) : t :=
  {| relations := relations st; settings := m; relationRefs := relationRefs st |}.

Definition with_relationRefs (m : gmap string relationRefDoc.t) (st : t) : t :=
  {| relations := relations st; settings := settings st; relationRefs := m |}.

End State.

(** The transaction runner of the [mgo/txn] package, for operations on the
    [relationRefs] collection.  As that package documents [Op]: the
    assertions of all operations are tested before any change takes place
    and the transaction is aborted if one fails, which is the only way to
    keep a transaction from being applied; an [Insert] goes on when the
    document already exists, and a [Remove] goes on when it does not. *)
Module txn.

Inductive assertion : Type := DocExists | DocMissing.

Record Op : Type := Build {
  Id : string;
  Assert : option assertion;
  Insert : option relationRefDoc.t;
  Remove : bool;
}.

Definition ErrAborted : error := "transaction aborted".

Definition holds (st : State.t) (op : Op) : bool :=
  match Assert op with
  | None => true
  | Some DocExists => bool_decide (is_Some (State.relationRefs st !! Id op))
  | Some DocMissing => bool_decide (State.relationRefs st !! Id op = None)
  end.

Definition apply (st : State.t) (op : Op) : State.t :=
  if Remove op then
    State.with_relationRefs (delete (Id op) (State.relationRefs st)) st
  else
    match Insert op, State.relationRefs st !! Id op with
    | Some d, None => State.with_relationRefs (<[Id op := d]> (State.relationRefs st)) st
    | _, _ => st
    end.

Definition Run (ops : list Op) (st : State.t) : State.t * option error :=
  if forallb (holds st) ops then (foldl apply st ops, None)
  else (st, Some ErrAborted).

End txn.

(** [mgo.ErrNotFound], what [One] returns when no document has the id. *)
Module mgo.

Definition ErrNotFound : error := "not found".

End mgo.

(** Modelled from the spec: [ensureLife] of the life-cycle code, which is
    not part of this file.  A monotonic conditional update: the stored life
    moves to the target when the target is ahead of it, and the call is a
    no-op, not an error, when the document is already at or past the
    target. *)
Definition ensureLife (st : State.t) (key : string) (life : Life) (descr : string)
  : State.t * option error :=
  match State.relations st !! key with
  | Some d =>
      if decide (Life_rank (relationDoc.Life d) < Life_rank life) then
        (State.with_relations (<[key := relationDoc.with_Life life d]> (State.relations st)) st, None)
      else (st, None)
  | None => (st, None)
  end.

(** Modelled from the spec: [trivial.ErrorContextf], which is not part of
    this file; an error, when there is one, is returned with contextual
    wrapping in front of it. *)
Definition ErrorContextf (err : option error) (context : string) : option error :=
  match err with
  | Some e => Some (context +:+ ": " +:+ e)
  | None => None
  end.

(** Modelled from the spec: the unit type of the unit code, which is not
    part of this file; a unit has a name, the name of its service, the name
    of its principal unit (empty when it has none) and a private address
    whose resolution can fail. *)
Module Unit.

Record t : Type := Build {
  Name : string;
  Service : string;
  Principal : string;
  PrivateAddress : result string;
}.

Definition String (u : t) : string := Name u.

End Unit.

(** Modelled from the spec: the settings node of the settings code, which
    is not part of this file.  A new node is empty, [Set_] (the [Set] of the source) changes the node
    in memory, [Write] writes or overwrites the settings document at the
    node's key, and [readConfigNode] reads the persisted state. *)
Module ConfigNode.

Record t : Type := Build {
  path : string;
  core : gmap string value;
}.

Definition Set_ (k : string) (v : value) (c : t) : t :=
  {| path := path c; core := <[k := v]> (core c) |}.

Definition Write (c : t) (st : State.t) : State.t * option error :=
  (State.with_settings (<[path c := core c]> (State.settings st)) st, None).

Definition Map (c : t) : gmap string value := core c.

End ConfigNode.

Definition newConfigNode (key : string) : ConfigNode.t :=
  {| ConfigNode.path := key; ConfigNode.core := ∅ |}.

Definition readConfigNode (st : State.t) (key : string) : result ConfigNode.t :=
  Ok {| ConfigNode.path := key;
        ConfigNode.core := default ∅ (State.settings st !! key) |}.

(** ** Relations *)

(** The [st] field of the source is the store passed to each operation. *)
Record Relation : Type := { doc : relationDoc.t }.

Record RelationUnit : Type := {
  relation : Relation;
  unit : Unit.t;
  endpoint : RelationEndpoint.t;
  scope : string;
}.

Definition newRelation (doc : relationDoc.t) : Relation := {| doc := doc |}.

Module Relation.

Definition String (r : Relation) : string := relationDoc.Key (doc r).

Definition Life (r : Relation) : Life := relationDoc.Life (doc r).

Definition Kill (r : Relation) (st : State.t) : Relation * State.t * option error :=
  let '(st', err) := ensureLife st (relationDoc.Key (doc r)) Dying "relation" in
  match err with
  | Some e => (r, st', Some e)
  | None => ({| doc := relationDoc.with_Life Dying (doc r) |}, st', None)
  end.

Definition Die (r : Relation) (st : State.t) : Relation * State.t * option error :=
  let '(st', err) := ensureLife st (relationDoc.Key (doc r)) Dead "relation" in
  match err with
  | Some e => (r, st', Some e)
  | None => ({| doc := relationDoc.with_Life Dead (doc r) |}, st', None)
  end.

Definition Id (r : Relation) : Z := relationDoc.Id (doc r).

(** The [%v] verbs print the relation through its [String] method and the
    error through its message. *)
Definition Refresh (r : Relation) (st : State.t) : Relation * option error :=
  match State.relations st !! relationDoc.Key (doc r) with
  | None =>
      (r, Some ("cannot refresh relation " +:+ String r +:+ ": " +:+ mgo.ErrNotFound))
  | Some doc => ({| doc := doc |}, None)
  end.

Fixpoint Endpoint_scan (eps : list RelationEndpoint.t) (serviceName : string)
  : option RelationEndpoint.t :=
  match eps with
  | [] => None
  | ep :: rest =>
      if String.eqb (RelationEndpoint.ServiceName ep) serviceName then Some ep
      else Endpoint_scan rest serviceName
  end.

Definition Endpoint `{!Quoting} (r : Relation) (serviceName : string)
  : result RelationEndpoint.t :=
  match Endpoint_scan (relationDoc.Endpoints (doc r)) serviceName with
  | Some ep => Ok ep
  | None =>
      Err ("service " +:+ quote serviceName +:+ " is not a member of " +:+ quote (String r))
  end.

Definition RelatedEndpoints `{!Quoting} (r : Relation) (serviceName : string)
  : outcome (result (list RelationEndpoint.t)) :=
  match Endpoint r serviceName with
  | Err err => Return (Err err)
  | Ok local =>
      role ←! counterpartRole (RelationEndpoint.RelationRole local);
      let eps :=
        foldl (fun eps ep =>
                 if String.eqb (RelationEndpoint.RelationRole ep) role
                 then (eps ++ [ep])%list else eps)
              [] (relationDoc.Endpoints (doc r)) in
      match eps with
      | [] =>
          Return (Err ("no endpoints of " +:+ quote (String r) +:+
                       " relate to service " +:+ quote serviceName))
      | _ => Return (Ok eps)
      end
  end.

Definition Unit `{!Quoting} (r : Relation) (u : Unit.t) : result RelationUnit :=
  match Endpoint r (Unit.Service u) with
  | Err err => Err err
  | Ok ep =>
      let scope := ["r"; Itoa (relationDoc.Id (doc r))] in
      let scope :=
        if String.eqb (RelationEndpoint.RelationScope ep) ScopeContainer then
          let container := Unit.Principal u in
          let container :=
            if String.eqb container EmptyString then Unit.Name u else container in
          (scope ++ [container])%list
        else scope in
      Ok {| relation := r; unit := u; endpoint := ep; scope := Join scope "#" |}
  end.

End Relation.

(** ** Relation units *)

(** Modelled from the spec: the scope watcher, whose code is not part of
    this file; it watches the membership keys under a scope and role
    prefix and is kept here as the two strings it is made from. *)
Module RelationScopeWatcher.

Record t : Type := Build {
  scope : string;
  ignore : string;
}.

End RelationScopeWatcher.

Definition newRelationScopeWatcher (scope ignore : string) : RelationScopeWatcher.t :=
  {| RelationScopeWatcher.scope := scope; RelationScopeWatcher.ignore := ignore |}.

Module RelationUnit.

Definition Relation (ru : RelationUnit) : Relation := relation ru.

Definition Endpoint (ru : RelationUnit) : RelationEndpoint.t := endpoint ru.

Definition key `{!Quoting} (ru : RelationUnit) (uname : string) : result string :=
  let uparts := Split uname "/" in
  let sname := default EmptyString (head uparts) in
  match Relation.Endpoint (relation ru) sname with
  | Err err => Err err
  | Ok ep =>
      let parts := [scope ru; RelationEndpoint.RelationRole ep; uname] in
      Ok (Join parts "#")
  end.

Definition EnsureJoin_context `{!Quoting} (ru : RelationUnit) : string :=
  "cannot initialize state for unit " +:+ quote (Unit.String (unit ru)) +:+
  " in relation " +:+ quote (Relation.String (relation ru)).

Definition EnsureJoin `{!Quoting} (ru : RelationUnit) (st : State.t)
  : State.t * option error :=
  let '(st', err) :=
    match Unit.PrivateAddress (unit ru) with
    | Err err => (st, Some err)
    | Ok address =>
        match key ru (Unit.Name (unit ru)) with
        | Err err => (st, Some err)
        | Ok key =>
            let node := newConfigNode key in
            let node := ConfigNode.Set_ "private-address" (VString address) node in
            match ConfigNode.Write node st with
            | (st1, Some err) => (st1, Some err)
            | (st1, None) =>
                let ops := [ {| txn.Id := key;
                                txn.Assert := None;
                                txn.Insert := Some {| relationRefDoc.Key := key |};
                                txn.Remove := false |} ] in
                txn.Run ops st1
            end
        end
    end in
  (st', ErrorContextf err (EnsureJoin_context ru)).

Definition EnsureDepart `{!Quoting} (ru : RelationUnit) (st : State.t)
  : State.t * option error :=
  match key ru (Unit.Name (unit ru)) with
  | Err err => (st, Some err)
  | Ok key =>
      let ops := [ {| txn.Id := key;
                      txn.Assert := None;
                      txn.Insert := None;
                      txn.Remove := true |} ] in
      txn.Run ops st
  end.

Definition WatchScope `{!Quoting} (ru : RelationUnit) : outcome RelationScopeWatcher.t :=
  role ←! counterpartRole (RelationEndpoint.RelationRole (endpoint ru));
  let scope := Join [scope ru; role] "#" in
  Return (newRelationScopeWatcher scope (Unit.Name (unit ru))).

Definition Settings `{!Quoting} (ru : RelationUnit) (st : State.t)
  : result ConfigNode.t :=
  match key ru (Unit.Name (unit ru)) with
  | Err err => Err err
  | Ok key => readConfigNode st key
  end.

Definition ReadSettings_context `{!Quoting} (ru : RelationUnit) (uname : string) : string :=
  "cannot read settings for unit " +:+ quote uname +:+
  " in relation " +:+ quote (Relation.String (relation ru)).

Definition with_context {A} (r : result A) (context : string) : result A :=
  match r with
  | Ok a => Ok a
  | Err e => match ErrorContextf (Some e) context with
             | Some e' => Err e'
             | None => Err e
             end
  end.

Definition ReadSettings `{!Quoting} (ru : RelationUnit) (st : State.t) (uname : string)
  : result (gmap string value) :=
  with_context
    match key ru uname with
    | Err err => Err err
    | Ok key =>
        match State.settings st !! key with
        | None => Err "not found"
        | Some _ =>
            match readConfigNode st key with
            | Err err => Err err
            | Ok node => Ok (ConfigNode.Map node)
            end
        end
    end
    (ReadSettings_context ru uname).

End RelationUnit.

(** Calls on one [Relation] value, in sequence. *)
Inductive life_call : Type := CallKill | CallDie.

Definition run_life_call (c : life_call) (r : Relation) (st : State.t)
  : Relation * State.t * option error :=
  match c with
  | CallKill => Relation.Kill r st
  | CallDie => Relation.Die r st
  end.

Fixpoint run_life_calls (cs : list life_call) (r : Relation) (st : State.t)
  : Relation * State.t :=
  match cs with
  | [] => (r, st)
  | c :: cs' =>
      let '(r', st', _) := run_life_call c r st in
      run_life_calls cs' r' st'
  end.

(** The last byte of a string, when it has one. *)
Fixpoint last_byte (s : string) : option ascii :=
  match s with
  | EmptyString => None
  | String c EmptyString => Some c
  | String _ s' => last_byte s'
  end.

(** An escaping that leaves every byte as it is, which is what
    [strconv.Quote] does on printable ASCII without quotes or backslashes;
    used to run the code on concrete inputs. *)
Definition verbatim : Quoting := fun s => s.

(** A relation between a principal service and a container-scoped
    subordinate, with one unit of each and a store holding the relation's
    document, for running the code. *)
Module Sample.

Definition wordpress : RelationEndpoint.t :=
  {| RelationEndpoint.ServiceName := "wordpress";
     RelationEndpoint.Interface := "logging";
     RelationEndpoint.RelationName := "juju-info";
     RelationEndpoint.RelationRole := RoleProvider;
     RelationEndpoint.RelationScope := ScopeContainer |}.

Definition logging : RelationEndpoint.t :=
  {| RelationEndpoint.ServiceName := "logging";
     RelationEndpoint.Interface := "logging";
     RelationEndpoint.RelationName := "info";
     RelationEndpoint.RelationRole := RoleRequirer;
     RelationEndpoint.RelationScope := ScopeContainer |}.

Definition riak : RelationEndpoint.t :=
  {| RelationEndpoint.ServiceName := "riak";
     RelationEndpoint.Interface := "ring";
     RelationEndpoint.RelationName := "ring";
     RelationEndpoint.RelationRole := RolePeer;
     RelationEndpoint.RelationScope := ScopeGlobal |}.

Definition rel : Relation :=
  {| doc := {| relationDoc.Key := relationKey [wordpress; logging];
               relationDoc.Id := 7;
               relationDoc.Endpoints := [wordpress; logging];
               relationDoc.Life := Alive |} |}.

Definition ring : Relation :=
  {| doc := {| relationDoc.Key := relationKey [riak];
               relationDoc.Id := 8;
               relationDoc.Endpoints := [riak];
               relationDoc.Life := Alive |} |}.

Definition wordpress0 : Unit.t :=
  {| Unit.Name := "wordpress/0"; Unit.Service := "wordpress";
     Unit.Principal := EmptyString; Unit.PrivateAddress := Ok "10.0.0.1" |}.

Definition logging0 : Unit.t :=
  {| Unit.Name := "logging/0"; Unit.Service := "logging";
     Unit.Principal := "wordpress/0"; Unit.PrivateAddress := Ok "10.0.0.1" |}.

Definition logging1 : Unit.t :=
  {| Unit.Name := "logging/1"; Unit.Service := "logging";
     Unit.Principal := "wordpress/1"; Unit.PrivateAddress := Ok "10.0.0.2" |}.

Definition ru : RelationUnit :=
  {| relation := rel; unit := logging0; endpoint := logging;
     scope := "r#7#wordpress/0" |}.

Definition st : State.t :=
  {| State.relations := {[ relationDoc.Key (doc rel) := doc rel ]};
     State.settings := ∅;
     State.relationRefs := ∅ |}.

End Sample.

(** The life of a relation as the store has it. *)
Definition stored_Life (st : State.t) (key : string) : option Life :=
  relationDoc.Life <$> State.relations st !! key.

(** ** The workload process facade *)

(** The types and helpers of the [process], [api], [common] and [errors]
    packages that the facade uses.  Their declarations are not part of
    this file, so they are parameters: [ServerError] and [Trace] are
    applied to errors that are not [nil] only, and [NotFoundf] takes the
    formatted message. *)
Class ProcessPackages : Type := {
  Info : Type;
  Status : Type;
  APIProcess : Type;
  APIStatus : Type;
  APIError : Type;
  Info_ID : Info → string;
  Info_Name : Info → string;
  Info_Details_ID : Info → string;
  API2Proc : APIProcess → Info;
  Proc2api : Info → APIProcess;
  APIStatus2Status : APIStatus → Status;
  ServerError : error → APIError;
  Trace : error → error;
  NotFoundf : string → error;
  BulkFailure : error;
}.

(** The [UnitProcesses] interface, over the state [S] behind it. *)
Class UnitProcesses `{!ProcessPackages} (S : Type) : Type := {
  Register : Info → S → S * option error;
  List : list string → S → S * result (list Info);
  SetStatus : string → Status → S → S * option error;
  Unregister : string → S → S * option error;
}.

Module ProcessResult.

Record t `{!ProcessPackages} : Type := Build {
  ID : string;
  Error : option APIError;
}.

End ProcessResult.

Module ProcessResults.

Record t `{!ProcessPackages} : Type := Build {
  Results : list ProcessResult.t;
  Error : option APIError;
}.

End ProcessResults.

(** [Info] is [None] for the zero value that an entry keeps when the
    process is not found. *)
Module ListProcessResult.

Record t `{!ProcessPackages} : Type := Build {
  ID : string;
  Info : option APIProcess;
  Error : option APIError;
}.

End ListProcessResult.

Module ListProcessesResults.

Record t `{!ProcessPackages} : Type := Build {
  Results : list ListProcessResult.t;
  Error : option APIError;
}.

End ListProcessesResults.

Module SetProcessStatusArg.

Record t `{!ProcessPackages} : Type := Build {
  ID : string;
  Status : APIStatus;
}.

End SetProcessStatusArg.

Module HookContextAPI.

Fixpoint RegisterProcesses_loop `{!ProcessPackages} {S : Type} `{!UnitProcesses S}
    (processes : list APIProcess) (r : ProcessResults.t) (st : S)
  : S * ProcessResults.t :=
  match processes with
  | [] => (st, r)
  | apiProc :: rest =>
      let info := API2Proc apiProc in
      let res := {| ProcessResult.ID := Info_ID info; ProcessResult.Error := None |} in
      let '(st, err) := Register info st in
      let '(res, r) :=
        match err with
        | Some err =>
            ({| ProcessResult.ID := ProcessResult.ID res;
                ProcessResult.Error := Some (ServerError (Trace err)) |},
             {| ProcessResults.Results := ProcessResults.Results r;
                ProcessResults.Error := Some (ServerError BulkFailure) |})
        | None => (res, r)
        end in
      let r := {| ProcessResults.Results := ProcessResults.Results r ++ [res];
                  ProcessResults.Error := ProcessResults.Error r |} in
      RegisterProcesses_loop rest r st
  end.

Definition RegisterProcesses `{!ProcessPackages} {S : Type} `{!UnitProcesses S}
    (processes : list APIProcess) (st : S)
  : S * ProcessResults.t * option error :=
  let r := {| ProcessResults.Results := []; ProcessResults.Error := None |} in
  (RegisterProcesses_loop processes r st, None).

(** The inner loop of [ListProcesses]: the entry of the first process
    whose [ID] is [id], and whether there is one.  The [procID] the source
    builds from the name and the details is not used by it. *)
Fixpoint ListProcesses_find `{!ProcessPackages} (procs : list Info) (id : string)
    (res : ListProcessResult.t) : ListProcessResult.t * bool :=
  match procs with
  | [] => (res, false)
  | proc :: rest =>
      let procID := Info_Name proc in
      let procID :=
        if negb (String.eqb (Info_Details_ID proc) EmptyString)
        then procID +:+ "/" +:+ Info_Details_ID proc else procID in
      if String.eqb id (Info_ID proc) then
        ({| ListProcessResult.ID := ListProcessResult.ID res;
            ListProcessResult.Info := Some (Proc2api proc);
            ListProcessResult.Error := ListProcessResult.Error res |}, true)
      else ListProcesses_find rest id res
  end.

Fixpoint ListProcesses_loop `{!ProcessPackages} `{!Quoting}
    (ids : list string) (procs : list Info) (r : ListProcessesResults.t)
  : ListProcessesResults.t :=
  match ids with
  | [] => r
  | id :: rest =>
      let res := {| ListProcessResult.ID := id;
                    ListProcessResult.Info := None;
                    ListProcessResult.Error := None |} in
      let '(res, found) := ListProcesses_find procs id res in
      let '(res, r) :=
        if negb found then
          ({| ListProcessResult.ID := ListProcessResult.ID res;
              ListProcessResult.Info := ListProcessResult.Info res;
              ListProcessResult.Error :=
                Some (ServerError (NotFoundf ("process " +:+ quote id))) |},
           {| ListProcessesResults.Results := ListProcessesResults.Results r;
              ListProcessesResults.Error := Some (ServerError BulkFailure) |})
        else (res, r) in
      let r := {| ListProcessesResults.Results := ListProcessesResults.Results r ++ [res];
                  ListProcessesResults.Error := ListProcessesResults.Error r |} in
      ListProcesses_loop rest procs r
  end.

Definition ListProcesses `{!ProcessPackages} `{!Quoting} {S : Type} `{!UnitProcesses S}
    (IDs : list string) (st : S)
  : S * ListProcessesResults.t * option error :=
  let r := {| ListProcessesResults.Results := [];
              ListProcessesResults.Error := None |} in
  let ids := IDs in
  match List ids st with
  | (st, Err err) =>
      (st, {| ListProcessesResults.Results := ListProcessesResults.Results r;
              ListProcessesResults.Error := Some (ServerError err) |}, None)
  | (st, Ok procs) =>
      let ids :=
        match ids with
        | [] => foldl (fun ids proc => ids ++ [Info_ID proc]) ids procs
        | _ => ids
        end in
      (st, ListProcesses_loop ids procs r, None)
  end.

Fixpoint SetProcessesStatus_loop `{!ProcessPackages} {S : Type} `{!UnitProcesses S}
    (args : list SetProcessStatusArg.t) (r : ProcessResults.t) (st : S)
  : S * ProcessResults.t :=
  match args with
  | [] => (st, r)
  | arg :: rest =>
      let res := {| ProcessResult.ID := SetProcessStatusArg.ID arg;
                    ProcessResult.Error := None |} in
      let status := APIStatus2Status (SetProcessStatusArg.Status arg) in
      let '(st, err) := SetStatus (SetProcessStatusArg.ID arg) status st in
      let '(res, r) :=
        match err with
        | Some err =>
            ({| ProcessResult.ID := ProcessResult.ID res;
                ProcessResult.Error := Some (ServerError err) |},
             {| ProcessResults.Results := ProcessResults.Results r;
                ProcessResults.Error := Some (ServerError BulkFailure) |})
        | None => (res, r)
        end in
      let r := {| ProcessResults.Results := ProcessResults.Results r ++ [res];
                  ProcessResults.Error := ProcessResults.Error r |} in
      SetProcessesStatus_loop rest r st
  end.

Definition SetProcessesStatus `{!ProcessPackages} {S : Type} `{!UnitProcesses S}
    (args : list SetProcessStatusArg.t) (st : S)
  : S * ProcessResults.t * option error :=
  let r := {| ProcessResults.Results := []; ProcessResults.Error := None |} in
  (SetProcessesStatus_loop args r st, None).

Fixpoint UnregisterProcesses_loop `{!ProcessPackages} {S : Type} `{!UnitProcesses S}
    (ids : list string) (r : ProcessResults.t) (st : S)
  : S * ProcessResults.t :=
  match ids with
  | [] => (st, r)
  | id :: rest =>
      let res := {| ProcessResult.ID := id; ProcessResult.Error := None |} in
      let '(st, err) := Unregister id st in
      let '(res, r) :=
        match err with
        | Some err =>
            ({| ProcessResult.ID := ProcessResult.ID res;
                ProcessResult.Error := Some (ServerError (Trace err)) |},
             {| ProcessResults.Results := ProcessResults.Results r;
                ProcessResults.Error := Some (ServerError BulkFailure) |})
        | None => (res, r)
        end in
      let r := {| ProcessResults.Results := ProcessResults.Results r ++ [res];
                  ProcessResults.Error := ProcessResults.Error r |} in
      UnregisterProcesses_loop rest r st
  end.

Definition UnregisterProcesses `{!ProcessPackages} {S : Type} `{!UnitProcesses S}
    (IDs : list string) (st : S)
  : S * ProcessResults.t * option error :=
  let r := {| ProcessResults.Results := []; ProcessResults.Error := None |} in
  (UnregisterProcesses_loop IDs r st, None).

End HookContextAPI.

(** What a bulk call keeps true of its results: the error of the whole is
    unset exactly when no entry has an error, and is the bulk failure
    otherwise. *)
Definition bulk_consistent `{!ProcessPackages} (r : ProcessResults.t) : Prop :=
  (ProcessResults.Error r = None ↔
   Forall (fun res => ProcessResult.Error res = None) (ProcessResults.Results r)) ∧
  (ProcessResults.Error r = None ∨
   ProcessResults.Error r = Some (ServerError BulkFailure)).

(** An entry of [ListProcesses] for the listed processes [procs]: either
    it carries the first listed process with the entry's id and no error,
    or no listed process has that id and it carries the not-found error. *)
Definition list_entry `{!ProcessPackages} `{!Quoting}
    (procs : list Info) (res : ListProcessResult.t) : Prop :=
  (ListProcessResult.Error res = None ∧
   ∃ pre proc post,
     procs = pre ++ proc :: post ∧
     Info_ID proc = ListProcessResult.ID res ∧
     Forall (fun q => Info_ID q ≠ ListProcessResult.ID res) pre ∧
     ListProcessResult.Info res = Some (Proc2api proc)) ∨
  (ListProcessResult.Info res = None ∧
   ListProcessResult.Error res =
     Some (ServerError (NotFoundf ("process " +:+ quote (ListProcessResult.ID res)))) ∧
   Forall (fun q => Info_ID q ≠ ListProcessResult.ID res) procs).

(** Packages and a state of registered processes kept in a list, for
    running the facade. *)
Module SampleProcesses.

Definition packages : ProcessPackages :=
  {| Info := string * string;
     Status := string;
     APIProcess := string * string;
     APIStatus := string;
     APIError := string;
     Info_ID := fun i => if String.eqb i.2 EmptyString then i.1 else i.1 +:+ "/" +:+ i.2;
     Info_Name := fst;
     Info_Details_ID := snd;
     API2Proc := fun p => p;
     Proc2api := fun i => i;
     APIStatus2Status := fun s => s;
     ServerError := fun e => e;
     Trace := fun e => e;
     NotFoundf := fun m => m +:+ " not found";
     BulkFailure := "at least one bulk operation failed" |}.

Definition has (id : string) (st : list (string * string)) : bool :=
  existsb (fun i => String.eqb (@Info_ID packages i) id) st.

Definition state : @UnitProcesses packages (list (string * string)) :=
  {| Register := fun (info : @Info packages) st =>
       if has (@Info_ID packages info) st then (st, Some "already registered")
       else ((st ++ [info])%list, None);
     List := fun ids st =>
       match ids with
       | [] => (st, Ok st)
       | _ => (st, Ok (List.filter
                         (fun i => existsb (String.eqb (@Info_ID packages i)) ids) st))
       end;
     SetStatus := fun id (status : @Status packages) st =>
       if has id st then (st, None) else (st, Some "no such process");
     Unregister := fun id st =>
       (List.filter (fun i => negb (String.eqb (@Info_ID packages i) id)) st, None) |}.

End SampleProcesses.

(** ** Theorems *)

Section roles.
Context `{!Quoting}.

Lemma counterpartRole_valid r :
  valid_role r → ∃ c, counterpartRole r = Return c ∧ valid_role c.
Proof.
  unfold valid_role. intros [-> | [-> | ->]]; vm_compute; eauto 6.
Qed.

(** C9: [counterpartRole] maps provider to requirer, requirer to provider
    and peer to peer, and panics on every role value outside these
    three: it then neither returns a role nor hands back an error. *)
Theorem counterpartRole_closed_enumeration :
  counterpartRole RoleProvider = Return RoleRequirer ∧
  counterpartRole RoleRequirer = Return RoleProvider ∧
  counterpartRole RolePeer = Return RolePeer ∧
  ∀ r : RelationRole,
    r ≠ RoleProvider → r ≠ RoleRequirer → r ≠ RolePeer →
    counterpartRole r = Panic ("unknown RelationRole: " +:+ quote r) ∧
    ∀ c, counterpartRole r ≠ Return c.
Proof.
  repeat split; try reflexivity.
  - unfold counterpartRole.
    destruct (String.eqb_spec r RoleProvider); [done |].
    destruct (String.eqb_spec r RoleRequirer); [done |].
    destruct (String.eqb_spec r RolePeer); [done |].
    reflexivity.
  - intros c. unfold counterpartRole.
    destruct (String.eqb_spec r RoleProvider); [done |].
    destruct (String.eqb_spec r RoleRequirer); [done |].
    destruct (String.eqb_spec r RolePeer); [done |].
    discriminate.
Qed.

Lemma CanRelateTo_interfaces_differ (a b : RelationEndpoint.t) :
  RelationEndpoint.Interface a ≠ RelationEndpoint.Interface b →
  RelationEndpoint.CanRelateTo a b = Return false.
Proof.
  intros Hne. unfold RelationEndpoint.CanRelateTo.
  destruct (String.eqb_spec (RelationEndpoint.Interface a) (RelationEndpoint.Interface b));
    [done | reflexivity].
Qed.

(** C1: for endpoints whose roles are in the enumeration, [CanRelateTo a b]
    is false when the interfaces differ, false when [a] or [b] is a peer,
    and otherwise true exactly when the role of [b] is the counterpart of
    the role of [a]: provider with requirer, or requirer with provider. *)
Theorem CanRelateTo_spec (a b : RelationEndpoint.t) :
  valid_role (RelationEndpoint.RelationRole a) →
  (RelationEndpoint.Interface a ≠ RelationEndpoint.Interface b →
     RelationEndpoint.CanRelateTo a b = Return false) ∧
  (RelationEndpoint.RelationRole a = RolePeer ∨ RelationEndpoint.RelationRole b = RolePeer →
     RelationEndpoint.CanRelateTo a b = Return false) ∧
  (RelationEndpoint.Interface a = RelationEndpoint.Interface b →
   RelationEndpoint.RelationRole a ≠ RolePeer →
   RelationEndpoint.RelationRole b ≠ RolePeer →
     ∃ c, counterpartRole (RelationEndpoint.RelationRole a) = Return c ∧
          (RelationEndpoint.CanRelateTo a b = Return true ↔
             RelationEndpoint.RelationRole b = c) ∧
          (RelationEndpoint.CanRelateTo a b = Return false ↔
             RelationEndpoint.RelationRole b ≠ c)) ∧
  (RelationEndpoint.CanRelateTo a b = Return true ↔
     RelationEndpoint.Interface a = RelationEndpoint.Interface b ∧
     (RelationEndpoint.RelationRole a = RoleProvider ∧
        RelationEndpoint.RelationRole b = RoleRequirer ∨
      RelationEndpoint.RelationRole a = RoleRequirer ∧
        RelationEndpoint.RelationRole b = RoleProvider)).
Proof.
  intros Hvalid. split; [apply CanRelateTo_interfaces_differ |].
  destruct a as [sa ia na ra ca], b as [sb ib nb rb cb].
  unfold RelationEndpoint.CanRelateTo.
  cbn [RelationEndpoint.Interface RelationEndpoint.RelationRole] in *.
  destruct (String.eqb_spec ia ib) as [-> | Hi]; cbn [negb].
  - destruct Hvalid as [-> | [-> | ->]].
    + change (String.eqb RoleProvider RolePeer) with false.
      change (counterpartRole RoleProvider) with (Return RoleRequirer).
      cbn [outcome_bind].
      destruct (String.eqb_spec RoleRequirer rb) as [<- | Hne].
      * split; [intros [[=] | [=]] |]. split; [| split; [intros _; auto | done]].
        intros _ _ _. exists RoleRequirer. repeat split; congruence.
      * split; [done |]. split.
        -- intros _ _ _. exists RoleRequirer. repeat split; congruence.
        -- split; [done |]. intros [_ [[_ ->] | [[=] _]]]. done.
    + change (String.eqb RoleRequirer RolePeer) with false.
      change (counterpartRole RoleRequirer) with (Return RoleProvider).
      cbn [outcome_bind].
      destruct (String.eqb_spec RoleProvider rb) as [<- | Hne].
      * split; [intros [[=] | [=]] |]. split; [| split; [intros _; auto | done]].
        intros _ _ _. exists RoleProvider. repeat split; congruence.
      * split; [done |]. split.
        -- intros _ _ _. exists RoleProvider. repeat split; congruence.
        -- split; [done |]. intros [_ [[[=] _] | [_ ->]]]. done.
    + change (String.eqb RolePeer RolePeer) with true. cbn iota.
      split; [done | split; [done |]].
      split; [done |]. intros [_ [[[=] _] | [[=] _]]].
  - split; [done | split; [done |]].
    split; [done |]. intros [? _]. done.
Qed.

End roles.

(** *** Library functions *)

Lemma Split_nonempty s sep : Split s sep ≠ [].
Proof.
  destruct s as [| c s]; simpl; [done |].
  destruct (decide (c = sep)); [done |].
  destruct (Split s sep); done.
Qed.

Lemma Split_no_sep s sep : Contains s sep = false → Split s sep = [s].
Proof.
  induction s as [| c s IH]; simpl; [done |].
  destruct (decide (c = sep)); [done |].
  intros Hs. by rewrite IH.
Qed.

Lemma Split_app s u sep :
  Split (s +:+ String sep u) sep = (Split s sep ++ Split u sep)%list.
Proof.
  induction s as [| c s IH]; simpl.
  - by rewrite decide_True.
  - destruct (decide (c = sep)); [by rewrite IH |].
    rewrite IH. destruct (Split s sep) eqn:E; [by apply Split_nonempty in E | done].
Qed.

Lemma last_Split_app s u sep :
  Contains u sep = false → last (Split (s +:+ String sep u) sep) = Some u.
Proof.
  intros Hu. rewrite Split_app, (Split_no_sep u) by done.
  by rewrite last_snoc.
Qed.

Lemma app_assoc_string (a b c : string) : (a +:+ b) +:+ c = a +:+ (b +:+ c).
Proof.
  induction a as [| x a IH]; [done |].
  change (String x ((a +:+ b) +:+ c) = String x (a +:+ b +:+ c)).
  by rewrite IH.
Qed.

(** [sort.Strings] is determined by its contract: whatever arrangement of
    the names is ascending is the one the sort returns. *)
Lemma sort_Strings_unique (names sorted : list string) :
  Sorted String.le sorted → sorted ≡ₚ names → sort_Strings names = sorted.
Proof.
  intros Hs Hp. unfold sort_Strings.
  apply (Sorted_unique String.le); [apply Sorted_merge_sort; apply _ | done |].
  by rewrite merge_sort_Permutation.
Qed.

Lemma sort_Strings_Permutation (l1 l2 : list string) :
  l1 ≡ₚ l2 → sort_Strings l1 = sort_Strings l2.
Proof.
  intros Hp. apply sort_Strings_unique.
  - apply Sorted_merge_sort; apply _.
  - unfold sort_Strings. by rewrite merge_sort_Permutation.
Qed.

(** *** Relation keys *)

Lemma relationKey_names (eps : list RelationEndpoint.t) (acc : list string) :
  foldl (fun names ep => (names ++ [RelationEndpoint.String ep])%list) acc eps =
  (acc ++ (RelationEndpoint.String <$> eps))%list.
Proof.
  revert acc. induction eps as [| ep eps IH]; intros acc; simpl.
  - by rewrite app_nil_r.
  - rewrite IH, <- app_assoc. done.
Qed.

(** C5: [relationKey] of a list of endpoints is the ascending arrangement
    of their [service:relationName] forms joined with a space, and two
    lists that are permutations of each other have the same key. *)
Theorem relationKey_permutation (eps eps' : list RelationEndpoint.t) :
  eps ≡ₚ eps' →
  relationKey eps = relationKey eps' ∧
  ∃ names : list string,
    names ≡ₚ (RelationEndpoint.String <$> eps) ∧
    Sorted String.le names ∧
    relationKey eps = Join names " ".
Proof.
  intros Hp. unfold relationKey. rewrite !relationKey_names. simpl.
  split.
  - f_equal. apply sort_Strings_Permutation. by rewrite Hp.
  - exists (sort_Strings (RelationEndpoint.String <$> eps)). split; [| split].
    + apply merge_sort_Permutation.
    + apply Sorted_merge_sort; apply _.
    + reflexivity.
Qed.

(** *** Relations and their units *)

Section relations.
Context `{!Quoting}.

Lemma Endpoint_scan_head ep rest :
  Relation.Endpoint_scan (ep :: rest) (RelationEndpoint.ServiceName ep) = Some ep.
Proof. simpl. by rewrite String.eqb_refl. Qed.

(** C10: in a relation whose endpoints are one peer endpoint,
    [RelatedEndpoints] for that endpoint's service returns, without error
    or panic, the list holding that endpoint alone. *)
Theorem RelatedEndpoints_single_peer (r : Relation) (ep : RelationEndpoint.t) :
  relationDoc.Endpoints (doc r) = [ep] →
  RelationEndpoint.RelationRole ep = RolePeer →
  Relation.RelatedEndpoints r (RelationEndpoint.ServiceName ep) = Return (Ok [ep]).
Proof.
  intros Heps Hrole. unfold Relation.RelatedEndpoints, Relation.Endpoint.
  rewrite Heps, Endpoint_scan_head, Hrole.
  change (counterpartRole RolePeer) with (Return RolePeer).
  cbn [outcome_bind foldl]. rewrite Hrole.
  change (String.eqb RolePeer RolePeer) with true. reflexivity.
Qed.

Lemma Unit_scope_of (r : Relation) (u : Unit.t) (ep : RelationEndpoint.t) :
  Relation.Endpoint r (Unit.Service u) = Ok ep →
  Relation.Unit r u =
    Ok {| relation := r; unit := u; endpoint := ep;
          scope := if decide (RelationEndpoint.RelationScope ep = ScopeContainer)
                   then "r#" +:+ Itoa (Relation.Id r) +:+ "#" +:+
                        (if decide (Unit.Principal u = EmptyString)
                         then Unit.Name u else Unit.Principal u)
                   else "r#" +:+ Itoa (Relation.Id r) |}.
Proof.
  intros Hep. unfold Relation.Unit. rewrite Hep. do 2 f_equal.
  destruct (String.eqb_spec (RelationEndpoint.RelationScope ep) ScopeContainer) as [Hc | Hc].
  - rewrite decide_True by done.
    destruct (String.eqb_spec (Unit.Principal u) EmptyString) as [Hp | Hp].
    + rewrite decide_True by done. reflexivity.
    + rewrite decide_False by done. reflexivity.
  - rewrite decide_False by done. reflexivity.
Qed.

Lemma Unit_inv (r : Relation) (u : Unit.t) (ru : RelationUnit) :
  Relation.Unit r u = Ok ru →
  Relation.Endpoint r (Unit.Service u) = Ok (endpoint ru).
Proof.
  unfold Relation.Unit. destruct (Relation.Endpoint r (Unit.Service u)); [| done].
  by intros [= <-].
Qed.

(** C6: [Unit] gives a unit of a global-scoped endpoint the scope
    [r#<id>] and a unit of a container-scoped endpoint the scope
    [r#<id>#<container>], the container being the unit's principal when it
    has one and the unit's own name otherwise; so in one relation two
    subordinates get the same scope exactly when their principals are the
    same. *)
Theorem Unit_scope_string :
  (∀ (r : Relation) (u : Unit.t) (ep : RelationEndpoint.t),
     Relation.Endpoint r (Unit.Service u) = Ok ep →
     ∃ ru, Relation.Unit r u = Ok ru ∧ endpoint ru = ep ∧
       (RelationEndpoint.RelationScope ep = ScopeGlobal →
          scope ru = "r#" +:+ Itoa (Relation.Id r)) ∧
       (RelationEndpoint.RelationScope ep = ScopeContainer →
        Unit.Principal u ≠ EmptyString →
          scope ru = "r#" +:+ Itoa (Relation.Id r) +:+ "#" +:+ Unit.Principal u) ∧
       (RelationEndpoint.RelationScope ep = ScopeContainer →
        Unit.Principal u = EmptyString →
          scope ru = "r#" +:+ Itoa (Relation.Id r) +:+ "#" +:+ Unit.Name u)) ∧
  (∀ (r : Relation) (u1 u2 : Unit.t) (ru1 ru2 : RelationUnit),
     Relation.Unit r u1 = Ok ru1 →
     Relation.Unit r u2 = Ok ru2 →
     RelationEndpoint.RelationScope (endpoint ru1) = ScopeContainer →
     RelationEndpoint.RelationScope (endpoint ru2) = ScopeContainer →
     Unit.Principal u1 ≠ EmptyString →
     Unit.Principal u2 ≠ EmptyString →
     (scope ru1 = scope ru2 ↔ Unit.Principal u1 = Unit.Principal u2)).
Proof.
  split.
  - intros r u ep Hep. eexists. split; [by apply Unit_scope_of |].
    cbn [endpoint scope]. split; [done |]. split; [| split].
    + intros Hg. rewrite decide_False; [done |]. rewrite Hg. discriminate.
    + intros Hc Hp. by rewrite (decide_True _ _ Hc), (decide_False _ _ Hp).
    + intros Hc Hp. by rewrite (decide_True _ _ Hc), (decide_True _ _ Hp).
  - intros r u1 u2 ru1 ru2 H1 H2 Hc1 Hc2 Hp1 Hp2.
    pose proof (Unit_inv _ _ _ H1) as E1. pose proof (Unit_inv _ _ _ H2) as E2.
    rewrite (Unit_scope_of _ _ _ E1) in H1. rewrite (Unit_scope_of _ _ _ E2) in H2.
    injection H1 as <-. injection H2 as <-. cbn [scope endpoint] in *.
    rewrite (decide_True _ _ Hc1), (decide_True _ _ Hc2).
    rewrite (decide_False _ _ Hp1), (decide_False _ _ Hp2).
    split; [| by intros ->].
    intros Heq.
    change ("r#" +:+ Itoa (Relation.Id r) +:+ "#" +:+ Unit.Principal u1) with
      (String.app "r#" (String.app (Itoa (Relation.Id r)) (String.app "#" (Unit.Principal u1)))) in Heq.
    change ("r#" +:+ Itoa (Relation.Id r) +:+ "#" +:+ Unit.Principal u2) with
      (String.app "r#" (String.app (Itoa (Relation.Id r)) (String.app "#" (Unit.Principal u2)))) in Heq.
    by do 3 apply (inj (String.app _)) in Heq.
Qed.

(** C7: for a unit name without [#] whose service has an endpoint in the
    relation, [key] is [<scope>#<role>#<uname>] with that endpoint's
    role, and [UnitName] of a document with that key is the unit name. *)
Theorem key_UnitName_roundtrip (ru : RelationUnit) (uname : string)
    (ep : RelationEndpoint.t) :
  Contains uname "#" = false →
  Relation.Endpoint (relation ru) (default EmptyString (head (Split uname "/"))) = Ok ep →
  RelationUnit.key ru uname =
    Ok (scope ru +:+ "#" +:+ RelationEndpoint.RelationRole ep +:+ "#" +:+ uname) ∧
  ∀ k, RelationUnit.key ru uname = Ok k →
       relationRefDoc.UnitName {| relationRefDoc.Key := k |} = uname.
Proof.
  intros Hu Hep.
  assert (RelationUnit.key ru uname =
    Ok (scope ru +:+ "#" +:+ RelationEndpoint.RelationRole ep +:+ "#" +:+ uname)) as Hk.
  { unfold RelationUnit.key. cbv zeta. by rewrite Hep. }
  split; [exact Hk |].
  intros k. rewrite Hk. intros [= <-].
  unfold relationRefDoc.UnitName. cbn [relationRefDoc.Key].
  replace (scope ru +:+ "#" +:+ RelationEndpoint.RelationRole ep +:+ "#" +:+ uname)
    with ((scope ru +:+ "#" +:+ RelationEndpoint.RelationRole ep) +:+ String "#" uname).
  - by rewrite last_Split_app.
  - by rewrite !app_assoc_string.
Qed.

End relations.

Example sample_relationKey :
  relationKey [Sample.wordpress; Sample.logging] = "logging:info wordpress:juju-info".
Proof. vm_compute. reflexivity. Qed.

Example sample_Unit :
  @Relation.Unit verbatim Sample.rel Sample.logging0 = Ok Sample.ru.
Proof. vm_compute. reflexivity. Qed.

Example sample_key :
  @RelationUnit.key verbatim Sample.ru "logging/0" = Ok "r#7#wordpress/0#requirer#logging/0".
Proof. vm_compute. reflexivity. Qed.

(** *** The transaction runner and the life-cycle update *)

Lemma Run_insert (st : State.t) (key : string) (d : relationRefDoc.t) :
  txn.Run [ {| txn.Id := key; txn.Assert := None;
               txn.Insert := Some d; txn.Remove := false |} ] st =
  (match State.relationRefs st !! key with
   | None => State.with_relationRefs (<[key := d]> (State.relationRefs st)) st
   | Some _ => st
   end, None).
Proof.
  unfold txn.Run, txn.apply, txn.holds. simpl.
  by destruct (State.relationRefs st !! key).
Qed.

Lemma Run_remove (st : State.t) (key : string) :
  txn.Run [ {| txn.Id := key; txn.Assert := None;
               txn.Insert := None; txn.Remove := true |} ] st =
  (State.with_relationRefs (delete key (State.relationRefs st)) st, None).
Proof. reflexivity. Qed.

(** With the assertion the source leaves out, an insert at a present id
    aborts the transaction. *)
Lemma Run_insert_DocMissing_aborts (st : State.t) (key : string) (d d' : relationRefDoc.t) :
  State.relationRefs st !! key = Some d' →
  txn.Run [ {| txn.Id := key; txn.Assert := Some txn.DocMissing;
               txn.Insert := Some d; txn.Remove := false |} ] st =
  (st, Some txn.ErrAborted).
Proof.
  intros Hk. unfold txn.Run, txn.holds. simpl.
  rewrite bool_decide_eq_false_2; [done |]. by rewrite Hk.
Qed.

Lemma ensureLife_no_error st key life descr : (ensureLife st key life descr).2 = None.
Proof.
  unfold ensureLife. destruct (State.relations st !! key); [| done].
  by destruct (decide _).
Qed.

Lemma ensureLife_stored st key life descr key' :
  stored_Life (ensureLife st key life descr).1 key' =
  if decide (key' = key)
  then (fun l => if decide (Life_rank l < Life_rank life) then life else l)
         <$> stored_Life st key
  else stored_Life st key'.
Proof.
  unfold ensureLife, stored_Life.
  destruct (decide (key' = key)) as [-> | Hne].
  - destruct (State.relations st !! key) as [d |] eqn:E; simpl; [| by rewrite E].
    destruct (decide _); simpl; [by rewrite lookup_insert_eq | by rewrite E].
  - destruct (State.relations st !! key) as [d |] eqn:E; simpl; [| done].
    destruct (decide _); simpl; [by rewrite lookup_insert_ne | done].
Qed.

Lemma ensureLife_frame st key life descr :
  State.settings (ensureLife st key life descr).1 = State.settings st ∧
  State.relationRefs (ensureLife st key life descr).1 = State.relationRefs st.
Proof.
  unfold ensureLife. destruct (State.relations st !! key); [| done].
  by destruct (decide _).
Qed.

(** What [Kill] and [Die] do to the stored document: it moves to the
    target when the target is ahead, and stays as it is otherwise. *)
Lemma run_life_call_stored c r st :
  stored_Life (run_life_call c r st).1.2 (Relation.String r) =
  (fun l => match c, l with
            | CallKill, Alive => Dying
            | CallKill, _ => l
            | CallDie, _ => Dead
            end) <$> stored_Life st (Relation.String r).
Proof.
  destruct c; simpl; unfold Relation.Kill, Relation.Die.
  - pose proof (ensureLife_stored st (relationDoc.Key (doc r)) Dying "relation"
                  (relationDoc.Key (doc r))) as Hs.
    pose proof (ensureLife_no_error st (relationDoc.Key (doc r)) Dying "relation") as He.
    destruct (ensureLife _ _ _ _) as [st' err]; simpl in *. subst err. simpl.
    unfold Relation.String. rewrite Hs, decide_True by done.
    destruct (stored_Life st _) as [[] |]; done.
  - pose proof (ensureLife_stored st (relationDoc.Key (doc r)) Dead "relation"
                  (relationDoc.Key (doc r))) as Hs.
    pose proof (ensureLife_no_error st (relationDoc.Key (doc r)) Dead "relation") as He.
    destruct (ensureLife _ _ _ _) as [st' err]; simpl in *. subst err. simpl.
    unfold Relation.String. rewrite Hs, decide_True by done.
    destruct (stored_Life st _) as [[] |]; done.
Qed.

Lemma run_life_call_key c r st :
  Relation.String (run_life_call c r st).1.1 = Relation.String r.
Proof.
  destruct c; simpl; unfold Relation.Kill, Relation.Die;
    destruct (ensureLife _ _ _ _) as [st' [e |]]; done.
Qed.

(** The stored life never moves backward, whatever the calls. *)
Lemma stored_Life_monotone cs r st l :
  stored_Life st (Relation.String r) = Some l →
  ∃ l', stored_Life (run_life_calls cs r st).2 (Relation.String r) = Some l' ∧
        Life_le l l'.
Proof.
  revert r st l. induction cs as [| c cs IH]; intros r st l Hl; simpl.
  - exists l. split; [done | unfold Life_le; lia].
  - pose proof (run_life_call_stored c r st) as Hs.
    pose proof (run_life_call_key c r st) as Hk.
    destruct (run_life_call c r st) as [[r' st'] err]; simpl in *.
    rewrite Hl in Hs. simpl in Hs. rewrite <- Hk in Hs.
    destruct (IH r' st' _ Hs) as (l' & Hl' & Hle).
    rewrite Hk in Hl'. exists l'. split; [done |].
    unfold Life_le in *. destruct c, l; simpl in *; lia.
Qed.

(** The [Relation] value takes the target life whenever the update
    returns without error, whatever the store did. *)
Lemma Kill_sets_Life r st :
  Relation.Life (Relation.Kill r st).1.1 = Dying ∧ (Relation.Kill r st).2 = None.
Proof.
  unfold Relation.Kill.
  pose proof (ensureLife_no_error st (relationDoc.Key (doc r)) Dying "relation") as He.
  destruct (ensureLife _ _ _ _) as [st' err]; simpl in *. by subst err.
Qed.

(** C2: on a [Relation] value that [Die] has moved to Dead, [Kill] leaves
    the stored document Dead and returns no error, and then sets the
    value's own life to Dying, so [Life] reports Dying after Dead. *)
Theorem Kill_after_Die_reports_Dying :
  let '(r1, st1) := run_life_calls [CallDie] Sample.rel Sample.st in
  let '(r2, st2) := run_life_calls [CallKill] r1 st1 in
  Relation.Life Sample.rel = Alive ∧
  Relation.Life r1 = Dead ∧
  stored_Life st1 (Relation.String r1) = Some Dead ∧
  Relation.Life r2 = Dying ∧
  stored_Life st2 (Relation.String r2) = Some Dead.
Proof. vm_compute. done. Qed.

(** *** Joining, departing and reading settings *)

Lemma last_byte_cons (x : ascii) (s : string) :
  last_byte (String x s) = match last_byte s with
                           | Some c => Some c
                           | None => Some x
                           end.
Proof.
  revert x. induction s as [| y s IH]; intros x; [done |].
  change (last_byte (String x (String y s))) with (last_byte (String y s)).
  rewrite (IH y). by destruct (last_byte s).
Qed.

Lemma last_byte_app (a b : string) :
  last_byte (a +:+ b) = match last_byte b with
                        | Some c => Some c
                        | None => last_byte a
                        end.
Proof.
  induction a as [| x a IH].
  - change (EmptyString +:+ b) with b. by destruct (last_byte b).
  - change (String x a +:+ b) with (String x (a +:+ b)).
    rewrite !last_byte_cons, IH.
    by destruct (last_byte b), (last_byte a).
Qed.

Section units.
Context `{!Quoting}.

Lemma last_byte_quote s : last_byte (quote s) = Some dquote.
Proof.
  unfold quote.
  change (String dquote (quote_body s +:+ String dquote EmptyString))
    with (String dquote EmptyString +:+ (quote_body s +:+ String dquote EmptyString)).
  by rewrite !last_byte_app.
Qed.

(** A successful [EnsureJoin] has resolved the address and the key, has
    written the settings document and has left a marker at the key. *)
Lemma EnsureJoin_ok_inv (ru : RelationUnit) (st st1 : State.t) :
  RelationUnit.EnsureJoin ru st = (st1, None) →
  ∃ k address,
    Unit.PrivateAddress (unit ru) = Ok address ∧
    RelationUnit.key ru (Unit.Name (unit ru)) = Ok k ∧
    State.relations st1 = State.relations st ∧
    State.settings st1 =
      <[k := {[ "private-address" := VString address ]}]> (State.settings st) ∧
    State.relationRefs st1 =
      match State.relationRefs st !! k with
      | None => <[k := {| relationRefDoc.Key := k |}]> (State.relationRefs st)
      | Some _ => State.relationRefs st
      end.
Proof.
  unfold RelationUnit.EnsureJoin.
  destruct (Unit.PrivateAddress (unit ru)) as [address | e]; [| done].
  destruct (RelationUnit.key ru (Unit.Name (unit ru))) as [k | e]; [| done].
  cbv zeta. unfold ConfigNode.Write. cbn [ConfigNode.path ConfigNode.core
    ConfigNode.Set_ newConfigNode].
  rewrite Run_insert. cbn [State.with_settings State.relationRefs State.settings].
  intros [= <-]. exists k, address.
  destruct (State.relationRefs st !! k); by rewrite ?insert_empty.
Qed.

Lemma EnsureJoin_error_inv (ru : RelationUnit) (st st1 : State.t) (e : error) :
  RelationUnit.EnsureJoin ru st = (st1, Some e) →
  st1 = st ∧
  ∃ inner, e = RelationUnit.EnsureJoin_context ru +:+ ": " +:+ inner ∧
    (Unit.PrivateAddress (unit ru) = Err inner ∨
     RelationUnit.key ru (Unit.Name (unit ru)) = Err inner).
Proof.
  unfold RelationUnit.EnsureJoin.
  destruct (Unit.PrivateAddress (unit ru)) as [address | e0].
  - destruct (RelationUnit.key ru (Unit.Name (unit ru))) as [k | e0].
    + cbv zeta. unfold ConfigNode.Write. by rewrite Run_insert.
    + intros [= <- <-]. eauto.
  - intros [= <- <-]. eauto.
Qed.

(** C3: after an [EnsureJoin] that succeeds, [EnsureDepart] succeeds and
    leaves no marker at the unit's membership key; it changes nothing but
    the [relationRefs] collection, so the settings document that the join
    wrote at that key is still there and [ReadSettings] returns it. *)
Theorem EnsureJoin_EnsureDepart (ru : RelationUnit) (st st1 : State.t) :
  RelationUnit.EnsureJoin ru st = (st1, None) →
  ∃ k address st2,
    RelationUnit.key ru (Unit.Name (unit ru)) = Ok k ∧
    Unit.PrivateAddress (unit ru) = Ok address ∧
    is_Some (State.relationRefs st1 !! k) ∧
    State.settings st1 !! k = Some {[ "private-address" := VString address ]} ∧
    RelationUnit.EnsureDepart ru st1 = (st2, None) ∧
    State.relationRefs st2 !! k = None ∧
    State.settings st2 = State.settings st1 ∧
    State.relations st2 = State.relations st1 ∧
    RelationUnit.ReadSettings ru st2 (Unit.Name (unit ru)) =
      Ok {[ "private-address" := VString address ]}.
Proof.
  intros Hjoin.
  destruct (EnsureJoin_ok_inv _ _ _ Hjoin) as (k & address & Ha & Hk & Hrel & Hset & Hrefs).
  exists k, address,
    (State.with_relationRefs (delete k (State.relationRefs st1)) st1).
  assert (State.settings st1 !! k = Some {[ "private-address" := VString address ]}) as Hdoc.
  { rewrite Hset. apply lookup_insert_eq. }
  split; [done |]. split; [done |]. split.
  { rewrite Hrefs. destruct (State.relationRefs st !! k) eqn:E.
    - by rewrite E.
    - rewrite lookup_insert_eq. eauto. }
  split; [done |]. split.
  { unfold RelationUnit.EnsureDepart. rewrite Hk. apply Run_remove. }
  split; [apply lookup_delete_eq |]. split; [done |]. split; [done |].
  unfold RelationUnit.ReadSettings. rewrite Hk.
  unfold readConfigNode, State.with_relationRefs. cbn [State.settings].
  rewrite Hdoc. reflexivity.
Qed.


(** C8: for a unit name whose service has an endpoint in the relation and
    whose settings document does not exist, [ReadSettings] returns the
    error [not found] behind its context, whatever markers the store
    holds; a unit name whose service has no endpoint gets the error of
    [Endpoint] instead, and the two messages differ. *)
Theorem ReadSettings_not_found (ru : RelationUnit) (st : State.t) (uname k : string) :
  RelationUnit.key ru uname = Ok k →
  State.settings st !! k = None →
  RelationUnit.ReadSettings ru st uname =
    Err (RelationUnit.ReadSettings_context ru uname +:+ ": " +:+ "not found") ∧
  (∀ refs, RelationUnit.ReadSettings ru (State.with_relationRefs refs st) uname =
           RelationUnit.ReadSettings ru st uname) ∧
  (∀ st' uname' e,
     Relation.Endpoint (relation ru) (default EmptyString (head (Split uname' "/"))) = Err e →
     RelationUnit.ReadSettings ru st' uname' =
       Err (RelationUnit.ReadSettings_context ru uname' +:+ ": " +:+
            "service " +:+ quote (default EmptyString (head (Split uname' "/"))) +:+
            " is not a member of " +:+ quote (Relation.String (relation ru))) ∧
     RelationUnit.ReadSettings ru st' uname' ≠ RelationUnit.ReadSettings ru st uname).
Proof.
  intros Hk Hnone.
  assert (RelationUnit.ReadSettings ru st uname =
    Err (RelationUnit.ReadSettings_context ru uname +:+ ": " +:+ "not found")) as Hnf.
  { unfold RelationUnit.ReadSettings. by rewrite Hk, Hnone. }
  split; [exact Hnf |]. split.
  { intros refs. unfold RelationUnit.ReadSettings. rewrite Hk. reflexivity. }
  intros st' uname' e He.
  assert (RelationUnit.ReadSettings ru st' uname' =
    Err (RelationUnit.ReadSettings_context ru uname' +:+ ": " +:+
         "service " +:+ quote (default EmptyString (head (Split uname' "/"))) +:+
         " is not a member of " +:+ quote (Relation.String (relation ru)))) as Hnm.
  { unfold RelationUnit.ReadSettings, RelationUnit.key. cbv zeta.
    revert He. unfold Relation.Endpoint.
    destruct (Relation.Endpoint_scan _ _); [done |]. intros _. reflexivity. }
  split; [exact Hnm |].
  rewrite Hnm, Hnf. intros [= Heq].
  apply (f_equal last_byte) in Heq.
  rewrite !last_byte_app, last_byte_quote in Heq.
  change (last_byte "not found") with (Some "d"%char) in Heq.
  discriminate Heq.
Qed.

End units.

(** *** The theorems at the sample relation *)

Lemma counterpartRole_closed_enumeration_witness :
  @counterpartRole verbatim "leader" =
    Panic ("unknown RelationRole: " +:+ @quote verbatim "leader").
Proof.
  apply (proj2 (proj2 (proj2 (@counterpartRole_closed_enumeration verbatim))) "leader");
    discriminate.
Defined.

Lemma CanRelateTo_spec_witness :
  valid_role (RelationEndpoint.RelationRole Sample.wordpress) ∧
  @RelationEndpoint.CanRelateTo verbatim Sample.wordpress Sample.logging = Return true.
Proof.
  assert (valid_role (RelationEndpoint.RelationRole Sample.wordpress)) as Hv
    by (left; reflexivity).
  split; [exact Hv |].
  apply (proj2 (proj2 (proj2 (@CanRelateTo_spec verbatim Sample.wordpress Sample.logging Hv)))).
  split; [reflexivity | left; split; reflexivity].
Defined.

Lemma relationKey_permutation_witness :
  [Sample.wordpress; Sample.logging] ≡ₚ [Sample.logging; Sample.wordpress] ∧
  relationKey [Sample.wordpress; Sample.logging] =
  relationKey [Sample.logging; Sample.wordpress].
Proof.
  assert ([Sample.wordpress; Sample.logging] ≡ₚ [Sample.logging; Sample.wordpress]) as Hp
    by apply perm_swap.
  split; [exact Hp |].
  exact (proj1 (relationKey_permutation _ _ Hp)).
Defined.

Lemma Unit_scope_string_witness :
  (∃ ru, @Relation.Unit verbatim Sample.rel Sample.logging0 = Ok ru ∧
         scope ru = "r#7#wordpress/0") ∧
  (scope Sample.ru =
     scope {| relation := Sample.rel; unit := Sample.logging1;
              endpoint := Sample.logging; scope := "r#7#wordpress/1" |} ↔
   Unit.Principal Sample.logging0 = Unit.Principal Sample.logging1).
Proof.
  split.
  - destruct (proj1 (@Unit_scope_string verbatim) Sample.rel Sample.logging0 Sample.logging)
      as (ru & Hru & _ & _ & Hc & _); [reflexivity |].
    exists ru. split; [exact Hru |]. apply Hc; [reflexivity | discriminate].
  - apply (proj2 (@Unit_scope_string verbatim) Sample.rel Sample.logging0 Sample.logging1);
      try reflexivity; discriminate.
Defined.

Lemma key_UnitName_roundtrip_witness :
  Contains "logging/0" "#" = false ∧
  @RelationUnit.key verbatim Sample.ru "logging/0" =
    Ok "r#7#wordpress/0#requirer#logging/0" ∧
  relationRefDoc.UnitName
    {| relationRefDoc.Key := "r#7#wordpress/0#requirer#logging/0" |} = "logging/0".
Proof.
  assert (Contains "logging/0" "#" = false) as Hc by reflexivity.
  destruct (@key_UnitName_roundtrip verbatim Sample.ru "logging/0" Sample.logging Hc eq_refl)
    as [Hk Hn].
  split; [exact Hc |]. split; [exact Hk |]. exact (Hn _ Hk).
Defined.

Lemma RelatedEndpoints_single_peer_witness :
  @Relation.RelatedEndpoints verbatim Sample.ring "riak" = Return (Ok [Sample.riak]).
Proof.
  exact (@RelatedEndpoints_single_peer verbatim Sample.ring Sample.riak eq_refl eq_refl).
Defined.

Lemma EnsureJoin_EnsureDepart_witness :
  let st1 := (@RelationUnit.EnsureJoin verbatim Sample.ru Sample.st).1 in
  @RelationUnit.EnsureJoin verbatim Sample.ru Sample.st = (st1, None) ∧
  ∃ st2, @RelationUnit.EnsureDepart verbatim Sample.ru st1 = (st2, None) ∧
         State.relationRefs st2 !! "r#7#wordpress/0#requirer#logging/0" = None ∧
         @RelationUnit.ReadSettings verbatim Sample.ru st2 "logging/0" =
           Ok {[ "private-address" := VString "10.0.0.1" ]}.
Proof.
  intros st1.
  assert (@RelationUnit.EnsureJoin verbatim Sample.ru Sample.st = (st1, None)) as Hj
    by (vm_compute; reflexivity).
  split; [exact Hj |].
  destruct (@EnsureJoin_EnsureDepart verbatim Sample.ru Sample.st st1 Hj)
    as (k & address & st2 & Hk & Ha & _ & _ & Hd & Hrefs & _ & _ & Hread).
  injection Hk as <-. injection Ha as <-.
  exists st2. split; [exact Hd |]. split; [exact Hrefs | exact Hread].
Defined.


Lemma ReadSettings_not_found_witness :
  @RelationUnit.key verbatim Sample.ru "logging/0" =
    Ok "r#7#wordpress/0#requirer#logging/0" ∧
  State.settings Sample.st !! "r#7#wordpress/0#requirer#logging/0" = None ∧
  @RelationUnit.ReadSettings verbatim Sample.ru Sample.st "logging/0" =
    Err (@RelationUnit.ReadSettings_context verbatim Sample.ru "logging/0" +:+
         ": " +:+ "not found").
Proof.
  assert (@RelationUnit.key verbatim Sample.ru "logging/0" =
            Ok "r#7#wordpress/0#requirer#logging/0") as Hk by reflexivity.
  assert (State.settings Sample.st !! "r#7#wordpress/0#requirer#logging/0" = None) as Hs
    by reflexivity.
  split; [exact Hk |]. split; [exact Hs |].
  exact (proj1 (@ReadSettings_not_found verbatim Sample.ru Sample.st _ _ Hk Hs)).
Defined.


(** ** Further properties of the code *)

(** *** Endpoints and related endpoints *)

Section endpoints.
Context `{!Quoting}.

Lemma CanRelateTo_true_inv (a b : RelationEndpoint.t) :
  RelationEndpoint.CanRelateTo a b = Return true →
  RelationEndpoint.Interface a = RelationEndpoint.Interface b ∧
  (RelationEndpoint.RelationRole a = RoleProvider ∧
     RelationEndpoint.RelationRole b = RoleRequirer ∨
   RelationEndpoint.RelationRole a = RoleRequirer ∧
     RelationEndpoint.RelationRole b = RoleProvider).
Proof.
  unfold RelationEndpoint.CanRelateTo, counterpartRole.
  destruct (String.eqb_spec (RelationEndpoint.Interface a) (RelationEndpoint.Interface b))
    as [Hi | Hi]; cbn [negb]; [| discriminate].
  destruct (String.eqb_spec (RelationEndpoint.RelationRole a) RolePeer); [discriminate |].
  destruct (String.eqb_spec (RelationEndpoint.RelationRole a) RoleProvider) as [Ha | Ha].
  - change (Return (String.eqb RoleRequirer (RelationEndpoint.RelationRole b)) = Return true →
            RelationEndpoint.Interface a = RelationEndpoint.Interface b ∧
            (RelationEndpoint.RelationRole a = RoleProvider ∧
               RelationEndpoint.RelationRole b = RoleRequirer ∨
             RelationEndpoint.RelationRole a = RoleRequirer ∧
               RelationEndpoint.RelationRole b = RoleProvider)).
    destruct (String.eqb_spec RoleRequirer (RelationEndpoint.RelationRole b));
      [eauto | discriminate].
  - destruct (String.eqb_spec (RelationEndpoint.RelationRole a) RoleRequirer) as [Ha' | Ha'].
    + change (Return (String.eqb RoleProvider (RelationEndpoint.RelationRole b)) = Return true →
              RelationEndpoint.Interface a = RelationEndpoint.Interface b ∧
              (RelationEndpoint.RelationRole a = RoleProvider ∧
                 RelationEndpoint.RelationRole b = RoleRequirer ∨
               RelationEndpoint.RelationRole a = RoleRequirer ∧
                 RelationEndpoint.RelationRole b = RoleProvider)).
      destruct (String.eqb_spec RoleProvider (RelationEndpoint.RelationRole b));
        [eauto | discriminate].
    + discriminate.
Qed.

Lemma CanRelateTo_true_intro (a b : RelationEndpoint.t) :
  RelationEndpoint.Interface a = RelationEndpoint.Interface b →
  (RelationEndpoint.RelationRole a = RoleProvider ∧
     RelationEndpoint.RelationRole b = RoleRequirer ∨
   RelationEndpoint.RelationRole a = RoleRequirer ∧
     RelationEndpoint.RelationRole b = RoleProvider) →
  RelationEndpoint.CanRelateTo a b = Return true.
Proof.
  intros Hi Hr. unfold RelationEndpoint.CanRelateTo. rewrite Hi, String.eqb_refl.
  cbn [negb]. destruct Hr as [[-> ->] | [-> ->]]; reflexivity.
Qed.

(** X1: a relation that may be established from [a] to [b] may be
    established from [b] to [a]; and for endpoints with roles of the
    enumeration [CanRelateTo] gives the same answer in both directions. *)
Theorem CanRelateTo_symmetric (a b : RelationEndpoint.t) :
  (RelationEndpoint.CanRelateTo a b = Return true →
   RelationEndpoint.CanRelateTo b a = Return true) ∧
  (valid_role (RelationEndpoint.RelationRole a) →
   valid_role (RelationEndpoint.RelationRole b) →
   RelationEndpoint.CanRelateTo a b = RelationEndpoint.CanRelateTo b a).
Proof.
  split.
  - intros (Hi & Hr)%CanRelateTo_true_inv. apply CanRelateTo_true_intro; [done | tauto].
  - intros Ha Hb. unfold RelationEndpoint.CanRelateTo.
    rewrite (String.eqb_sym (RelationEndpoint.Interface b)).
    destruct (String.eqb (RelationEndpoint.Interface a) (RelationEndpoint.Interface b));
      cbn [negb]; [| done].
    destruct Ha as [-> | [-> | ->]], Hb as [-> | [-> | ->]]; reflexivity.
Qed.

Lemma Endpoint_scan_Some eps s ep :
  Relation.Endpoint_scan eps s = Some ep ↔
  ∃ pre post, eps = (pre ++ ep :: post)%list ∧
              RelationEndpoint.ServiceName ep = s ∧
              Forall (fun e => RelationEndpoint.ServiceName e ≠ s) pre.
Proof.
  split.
  - induction eps as [| e eps IH]; simpl; [done |].
    destruct (String.eqb_spec (RelationEndpoint.ServiceName e) s) as [He | He].
    + intros [= ->]. exists [], eps. by repeat split.
    + intros (pre & post & -> & Hs & Hpre)%IH.
      exists (e :: pre), post. repeat split; [done |]. by constructor.
  - intros (pre & post & -> & Hs & Hpre).
    induction Hpre as [| e pre He _ IH]; simpl.
    + by rewrite (proj2 (String.eqb_eq _ _) Hs).
    + by rewrite (proj2 (String.eqb_neq _ _) He).
Qed.

Lemma Endpoint_scan_None eps s :
  Relation.Endpoint_scan eps s = None ↔
  Forall (fun e => RelationEndpoint.ServiceName e ≠ s) eps.
Proof.
  induction eps as [| e eps IH]; simpl; [by split; [constructor |] |].
  destruct (String.eqb_spec (RelationEndpoint.ServiceName e) s) as [He | He].
  - split; [done |]. by intros [? _]%Forall_cons.
  - rewrite IH. split; [by constructor |]. by intros [_ ?]%Forall_cons.
Qed.

(** X2: [Endpoint] returns the first endpoint of the relation whose
    service name is the one asked for, and only that one; it returns its
    not-a-member error exactly when no endpoint has that service name. *)
Theorem Endpoint_first_match (r : Relation) (serviceName : string) :
  (∀ ep, Relation.Endpoint r serviceName = Ok ep ↔
     ∃ pre post,
       relationDoc.Endpoints (doc r) = (pre ++ ep :: post)%list ∧
       RelationEndpoint.ServiceName ep = serviceName ∧
       Forall (fun e => RelationEndpoint.ServiceName e ≠ serviceName) pre) ∧
  (Relation.Endpoint r serviceName =
     Err ("service " +:+ quote serviceName +:+ " is not a member of " +:+
          quote (Relation.String r)) ↔
   Forall (fun e => RelationEndpoint.ServiceName e ≠ serviceName)
          (relationDoc.Endpoints (doc r))) ∧
  (∀ e, Relation.Endpoint r serviceName = Err e →
     e = "service " +:+ quote serviceName +:+ " is not a member of " +:+
         quote (Relation.String r)).
Proof.
  unfold Relation.Endpoint. split; [| split].
  - intros ep. rewrite <- Endpoint_scan_Some.
    destruct (Relation.Endpoint_scan _ _); split; congruence.
  - rewrite <- Endpoint_scan_None.
    destruct (Relation.Endpoint_scan _ _); split; congruence.
  - intros e. destruct (Relation.Endpoint_scan _ _); congruence.
Qed.

Lemma RelatedEndpoints_loop (role : RelationRole) (l acc : list RelationEndpoint.t) :
  foldl (fun eps ep =>
           if String.eqb (RelationEndpoint.RelationRole ep) role
           then (eps ++ [ep])%list else eps) acc l =
  (acc ++ filter (fun ep => RelationEndpoint.RelationRole ep = role) l)%list.
Proof.
  revert acc. induction l as [| ep l IH]; intros acc; simpl.
  - by rewrite app_nil_r.
  - rewrite IH. destruct (String.eqb_spec (RelationEndpoint.RelationRole ep) role) as [He | He].
    + rewrite filter_cons_True by done. by rewrite <- app_assoc.
    + by rewrite filter_cons_False.
Qed.

Lemma RelatedEndpoints_unfold (r : Relation) (serviceName : string)
    (local : RelationEndpoint.t) (role : RelationRole) :
  Relation.Endpoint r serviceName = Ok local →
  counterpartRole (RelationEndpoint.RelationRole local) = Return role →
  Relation.RelatedEndpoints r serviceName =
    match filter (fun ep => RelationEndpoint.RelationRole ep = role)
                 (relationDoc.Endpoints (doc r)) with
    | [] => Return (Err ("no endpoints of " +:+ quote (Relation.String r) +:+
                         " relate to service " +:+ quote serviceName))
    | eps => Return (Ok eps)
    end.
Proof.
  intros Hl Hc. unfold Relation.RelatedEndpoints. rewrite Hl, Hc.
  cbn [outcome_bind]. rewrite RelatedEndpoints_loop, app_nil_l.
  by destruct (filter _ _).
Qed.

(** X3: when [RelatedEndpoints] returns endpoints, they are all the
    endpoints of the relation whose role is the counterpart of the role of
    the service's own endpoint, in the order of the relation, and there is
    at least one. *)
Theorem RelatedEndpoints_sound_complete (r : Relation) (serviceName : string)
    (eps : list RelationEndpoint.t) :
  Relation.RelatedEndpoints r serviceName = Return (Ok eps) →
  eps ≠ [] ∧
  ∃ local role,
    Relation.Endpoint r serviceName = Ok local ∧
    counterpartRole (RelationEndpoint.RelationRole local) = Return role ∧
    eps = filter (fun ep => RelationEndpoint.RelationRole ep = role)
                 (relationDoc.Endpoints (doc r)) ∧
    ∀ ep, ep ∈ eps ↔
          ep ∈ relationDoc.Endpoints (doc r) ∧ RelationEndpoint.RelationRole ep = role.
Proof.
  intros Hre.
  destruct (Relation.Endpoint r serviceName) as [local | e] eqn:Hl.
  2: { unfold Relation.RelatedEndpoints in Hre. by rewrite Hl in Hre. }
  destruct (counterpartRole (RelationEndpoint.RelationRole local)) as [role | v] eqn:Hc.
  2: { unfold Relation.RelatedEndpoints in Hre. by rewrite Hl, Hc in Hre. }
  rewrite (RelatedEndpoints_unfold _ _ _ _ Hl Hc) in Hre.
  destruct (filter _ _) as [| ep0 eps0] eqn:Hf; [done |].
  injection Hre as <-. split; [done |]. exists local, role.
  split; [done |]. split; [done |]. split; [done |].
  intros ep. rewrite <- Hf, list_elem_of_filter. tauto.
Qed.

(** X4: the three ways [RelatedEndpoints] fails.  The not-a-member error
    of [Endpoint] is returned as it is; a relation with no endpoint of the
    counterpart role gives the no-endpoints error; and an own endpoint
    whose role is not of the enumeration makes the call panic. *)
Theorem RelatedEndpoints_failures (r : Relation) (serviceName : string) :
  (∀ e, Relation.Endpoint r serviceName = Err e →
        Relation.RelatedEndpoints r serviceName = Return (Err e)) ∧
  (∀ local role,
     Relation.Endpoint r serviceName = Ok local →
     counterpartRole (RelationEndpoint.RelationRole local) = Return role →
     Forall (fun ep => RelationEndpoint.RelationRole ep ≠ role)
            (relationDoc.Endpoints (doc r)) →
     Relation.RelatedEndpoints r serviceName =
       Return (Err ("no endpoints of " +:+ quote (Relation.String r) +:+
                    " relate to service " +:+ quote serviceName))) ∧
  (∀ local,
     Relation.Endpoint r serviceName = Ok local →
     ¬ valid_role (RelationEndpoint.RelationRole local) →
     Relation.RelatedEndpoints r serviceName =
       Panic ("unknown RelationRole: " +:+ quote (RelationEndpoint.RelationRole local))).
Proof.
  split; [| split].
  - intros e He. unfold Relation.RelatedEndpoints. by rewrite He.
  - intros local role Hl Hc Hall.
    rewrite (RelatedEndpoints_unfold _ _ _ _ Hl Hc).
    replace (filter _ _) with (@nil RelationEndpoint.t); [done |].
    symmetry. induction Hall as [| ep l Hep _ IH]; [done |].
    by rewrite filter_cons_False.
  - intros local Hl Hv. unfold Relation.RelatedEndpoints. rewrite Hl.
    unfold counterpartRole, valid_role in *.
    destruct (String.eqb_spec (RelationEndpoint.RelationRole local) RoleProvider); [tauto |].
    destruct (String.eqb_spec (RelationEndpoint.RelationRole local) RoleRequirer); [tauto |].
    destruct (String.eqb_spec (RelationEndpoint.RelationRole local) RolePeer); [tauto |].
    reflexivity.
Qed.

(** X5: in a relation between two endpoints that can relate to each
    other and belong to different services, the related endpoints of each
    service are the endpoint of the other. *)
Theorem RelatedEndpoints_pair (r : Relation) (a b : RelationEndpoint.t) :
  relationDoc.Endpoints (doc r) = [a; b] →
  RelationEndpoint.CanRelateTo a b = Return true →
  RelationEndpoint.ServiceName a ≠ RelationEndpoint.ServiceName b →
  Relation.RelatedEndpoints r (RelationEndpoint.ServiceName a) = Return (Ok [b]) ∧
  Relation.RelatedEndpoints r (RelationEndpoint.ServiceName b) = Return (Ok [a]).
Proof.
  intros Heps (_ & Hr)%CanRelateTo_true_inv Hne.
  assert (Relation.Endpoint r (RelationEndpoint.ServiceName a) = Ok a) as Ha.
  { unfold Relation.Endpoint. by rewrite Heps, Endpoint_scan_head. }
  assert (Relation.Endpoint r (RelationEndpoint.ServiceName b) = Ok b) as Hb.
  { unfold Relation.Endpoint. rewrite Heps. simpl.
    rewrite (proj2 (String.eqb_neq _ _) Hne). by rewrite String.eqb_refl. }
  destruct Hr as [[Hra Hrb] | [Hra Hrb]].
  - split.
    + rewrite (RelatedEndpoints_unfold _ _ a RoleRequirer Ha) by (by rewrite Hra).
      rewrite Heps, filter_cons_False by (by rewrite Hra).
      by rewrite filter_cons_True.
    + rewrite (RelatedEndpoints_unfold _ _ b RoleProvider Hb) by (by rewrite Hrb).
      rewrite Heps, filter_cons_True by done.
      by rewrite filter_cons_False by (by rewrite Hrb).
  - split.
    + rewrite (RelatedEndpoints_unfold _ _ a RoleProvider Ha) by (by rewrite Hra).
      rewrite Heps, filter_cons_False by (by rewrite Hra).
      by rewrite filter_cons_True.
    + rewrite (RelatedEndpoints_unfold _ _ b RoleRequirer Hb) by (by rewrite Hrb).
      rewrite Heps, filter_cons_True by done.
      by rewrite filter_cons_False by (by rewrite Hrb).
Qed.

End endpoints.

(** *** Units, scopes and membership keys *)

Lemma string_length_app (a b : string) :
  String.length (a +:+ b) = String.length a + String.length b.
Proof.
  induction a as [| x a IH]; [done |].
  change (String x a +:+ b) with (String x (a +:+ b)). simpl. by rewrite IH.
Qed.

Lemma string_app_inj_r (a b c : string) : a +:+ c = b +:+ c → a = b.
Proof.
  revert b. induction a as [| x a IH]; intros [| y b] Heq.
  - done.
  - apply (f_equal String.length) in Heq.
    change (String y b +:+ c) with (String y (b +:+ c)) in Heq.
    change (EmptyString +:+ c) with c in Heq.
    simpl in Heq. rewrite string_length_app in Heq. lia.
  - apply (f_equal String.length) in Heq.
    change (String x a +:+ c) with (String x (a +:+ c)) in Heq.
    change (EmptyString +:+ c) with c in Heq.
    simpl in Heq. rewrite string_length_app in Heq. lia.
  - change (String x (a +:+ c) = String y (b +:+ c)) in Heq.
    injection Heq as -> Heq. f_equal. by apply IH.
Qed.

(** The pieces of [Split]: the last one has no separator in it and ends
    the string, after a separator when there are other pieces. *)
Lemma Split_last (s : string) (sep : ascii) :
  ∃ init tail,
    Split s sep = (init ++ [tail])%list ∧
    Contains tail sep = false ∧
    (init = [] ∧ s = tail ∨ init ≠ [] ∧ ∃ p, s = p +:+ String sep tail).
Proof.
  induction s as [| c s (init & tail & Hs & Ht & Hshape)].
  - exists [], EmptyString. repeat split; auto.
  - simpl. destruct (decide (c = sep)) as [-> | Hc].
    + exists (EmptyString :: init), tail. rewrite Hs. repeat split; [done |].
      right. split; [done |].
      destruct Hshape as [[-> ->] | [_ [p ->]]].
      * by exists EmptyString.
      * by exists (String sep p).
    + rewrite Hs. destruct Hshape as [[-> ->] | [Hne [p ->]]].
      * exists [], (String c tail). simpl. rewrite decide_False by done. auto.
      * destruct init as [| p0 init]; [done |].
        exists (String c p0 :: init), tail. repeat split; [done |].
        right. split; [done |]. by exists (String c p).
Qed.

Section keys.
Context `{!Quoting}.

Lemma valid_role_no_hash (r : RelationRole) : valid_role r → Contains r "#" = false.
Proof. by intros [-> | [-> | ->]]. Qed.

Lemma key_Ok_inv (ru : RelationUnit) (uname k : string) :
  RelationUnit.key ru uname = Ok k →
  ∃ ep,
    Relation.Endpoint (relation ru) (default EmptyString (head (Split uname "/"))) = Ok ep ∧
    k = (scope ru +:+ "#" +:+ RelationEndpoint.RelationRole ep) +:+ String "#" uname.
Proof.
  unfold RelationUnit.key. cbv zeta.
  destruct (Relation.Endpoint _ _) as [ep | e]; [| done].
  intros [= <-]. exists ep. split; [done |].
  cbn [Join]. by rewrite !app_assoc_string.
Qed.

(** X6: [Unit] fails exactly when the unit's service has no endpoint in
    the relation, with the error of [Endpoint]; when it succeeds, the
    relation unit holds the relation, the unit and the endpoint of the
    unit's service, which is one of the relation's endpoints. *)
Theorem Unit_result (r : Relation) (u : Unit.t) :
  (∀ e, Relation.Unit r u = Err e ↔ Relation.Endpoint r (Unit.Service u) = Err e) ∧
  (∀ ru, Relation.Unit r u = Ok ru →
     relation ru = r ∧ unit ru = u ∧
     Relation.Endpoint r (Unit.Service u) = Ok (endpoint ru) ∧
     RelationEndpoint.ServiceName (endpoint ru) = Unit.Service u ∧
     endpoint ru ∈ relationDoc.Endpoints (doc r)).
Proof.
  split.
  - intros e. unfold Relation.Unit.
    destruct (Relation.Endpoint r (Unit.Service u)); split; congruence.
  - intros ru Hru. pose proof (Unit_inv _ _ _ Hru) as Hep.
    rewrite (Unit_scope_of _ _ _ Hep) in Hru. injection Hru as <-.
    cbn [relation unit endpoint] in *. repeat split; [done | |].
    + revert Hep. unfold Relation.Endpoint.
      destruct (Relation.Endpoint_scan _ _) eqn:E; [| done].
      intros [= <-]. by apply Endpoint_scan_Some in E as (? & ? & _ & ? & _).
    + revert Hep. unfold Relation.Endpoint.
      destruct (Relation.Endpoint_scan _ _) eqn:E; [| done].
      intros [= <-]. apply Endpoint_scan_Some in E as (pre & post & -> & _ & _).
      apply elem_of_app. right. by left.
Qed.

(** X7: in a container-scoped relation a principal unit, its name not
    empty, and a subordinate whose principal it is get the same scope; and
    the units of
    endpoints that are not container-scoped all get the one scope of the
    relation. *)
Theorem Unit_scope_shared (r : Relation) (u1 u2 : Unit.t) (ru1 ru2 : RelationUnit) :
  Relation.Unit r u1 = Ok ru1 →
  Relation.Unit r u2 = Ok ru2 →
  (RelationEndpoint.RelationScope (endpoint ru1) = ScopeContainer →
   RelationEndpoint.RelationScope (endpoint ru2) = ScopeContainer →
   Unit.Principal u1 = EmptyString →
   Unit.Name u1 ≠ EmptyString →
   Unit.Principal u2 = Unit.Name u1 →
   scope ru1 = scope ru2) ∧
  (RelationEndpoint.RelationScope (endpoint ru1) ≠ ScopeContainer →
   RelationEndpoint.RelationScope (endpoint ru2) ≠ ScopeContainer →
   scope ru1 = scope ru2 ∧ scope ru1 = "r#" +:+ Itoa (Relation.Id r)).
Proof.
  intros H1 H2.
  pose proof (Unit_inv _ _ _ H1) as E1. pose proof (Unit_inv _ _ _ H2) as E2.
  rewrite (Unit_scope_of _ _ _ E1) in H1. rewrite (Unit_scope_of _ _ _ E2) in H2.
  injection H1 as <-. injection H2 as <-. cbn [scope endpoint] in *.
  split.
  - intros Hc1 Hc2 Hp1 Hn1 Hp2.
    rewrite (decide_True _ _ Hc1), (decide_True _ _ Hc2), (decide_True _ _ Hp1).
    rewrite decide_False by congruence. by rewrite Hp2.
  - intros Hc1 Hc2. by rewrite (decide_False _ _ Hc1), (decide_False _ _ Hc2).
Qed.

(** X8: a membership key tells the unit name, the role and the scope it
    was made from: when two calls of [key], on any relation units, give
    the same key for unit names without [#], the unit names are the same;
    and then, the roles being of the enumeration, so are the roles and the
    scopes. *)
Theorem key_injective (ru1 ru2 : RelationUnit) (u1 u2 k : string)
    (ep1 ep2 : RelationEndpoint.t) :
  Contains u1 "#" = false →
  Contains u2 "#" = false →
  Relation.Endpoint (relation ru1) (default EmptyString (head (Split u1 "/"))) = Ok ep1 →
  Relation.Endpoint (relation ru2) (default EmptyString (head (Split u2 "/"))) = Ok ep2 →
  RelationUnit.key ru1 u1 = Ok k →
  RelationUnit.key ru2 u2 = Ok k →
  u1 = u2 ∧
  (valid_role (RelationEndpoint.RelationRole ep1) →
   valid_role (RelationEndpoint.RelationRole ep2) →
   RelationEndpoint.RelationRole ep1 = RelationEndpoint.RelationRole ep2 ∧
   scope ru1 = scope ru2).
Proof.
  intros Hu1 Hu2 He1 He2 Hk1 Hk2.
  apply key_Ok_inv in Hk1 as (ep1' & He1' & Hk1).
  apply key_Ok_inv in Hk2 as (ep2' & He2' & Hk2).
  rewrite He1 in He1'. injection He1' as <-.
  rewrite He2 in He2'. injection He2' as <-.
  assert (u1 = u2) as <-.
  { pose proof (last_Split_app (scope ru1 +:+ "#" +:+ RelationEndpoint.RelationRole ep1)
                  u1 "#" Hu1) as L1.
    pose proof (last_Split_app (scope ru2 +:+ "#" +:+ RelationEndpoint.RelationRole ep2)
                  u2 "#" Hu2) as L2.
    rewrite <- Hk1 in L1. rewrite <- Hk2 in L2. congruence. }
  split; [done |]. intros Hv1 Hv2.
  rewrite Hk1 in Hk2. apply string_app_inj_r in Hk2.
  assert (RelationEndpoint.RelationRole ep1 = RelationEndpoint.RelationRole ep2) as Hr.
  { pose proof (last_Split_app (scope ru1) (RelationEndpoint.RelationRole ep1) "#"
                  (valid_role_no_hash _ Hv1)) as L1.
    pose proof (last_Split_app (scope ru2) (RelationEndpoint.RelationRole ep2) "#"
                  (valid_role_no_hash _ Hv2)) as L2.
    change (scope ru1 +:+ "#" +:+ RelationEndpoint.RelationRole ep1)
      with (scope ru1 +:+ String "#" (RelationEndpoint.RelationRole ep1)) in Hk2.
    change (scope ru2 +:+ "#" +:+ RelationEndpoint.RelationRole ep2)
      with (scope ru2 +:+ String "#" (RelationEndpoint.RelationRole ep2)) in Hk2.
    rewrite Hk2 in L1. congruence. }
  split; [done |].
  rewrite Hr in Hk2.
  by apply string_app_inj_r in Hk2.
Qed.

(** X9: the unit name that [UnitName] reads off a key never has a [#] in
    it and is the end of the key: the whole key when the key has no [#],
    and what follows its last [#] otherwise. *)
Theorem UnitName_suffix (d : relationRefDoc.t) :
  Contains (relationRefDoc.UnitName d) "#" = false ∧
  (relationRefDoc.Key d = relationRefDoc.UnitName d ∨
   ∃ p, relationRefDoc.Key d = p +:+ String "#" (relationRefDoc.UnitName d)).
Proof.
  unfold relationRefDoc.UnitName. cbv zeta.
  destruct (Split_last (relationRefDoc.Key d) "#") as (init & tail & -> & Ht & Hshape).
  rewrite last_snoc. cbn [default]. split; [done |].
  destruct Hshape as [[_ ?] | [_ ?]]; auto.
Qed.

(** X10: [WatchScope] watches the scope of the relation unit under the
    counterpart of its role, ignoring the unit itself, and the membership
    key of every unit whose service has an endpoint of that counterpart
    role is the watched scope followed by [#] and the unit name; on a role
    outside the enumeration [WatchScope] panics. *)
Theorem WatchScope_covers_counterparts (ru : RelationUnit) :
  (∀ w, RelationUnit.WatchScope ru = Return w →
     RelationScopeWatcher.ignore w = Unit.Name (unit ru) ∧
     ∃ role,
       counterpartRole (RelationEndpoint.RelationRole (endpoint ru)) = Return role ∧
       RelationScopeWatcher.scope w = scope ru +:+ "#" +:+ role ∧
       ∀ uname ep,
         Relation.Endpoint (relation ru) (default EmptyString (head (Split uname "/"))) = Ok ep →
         RelationEndpoint.RelationRole ep = role →
         RelationUnit.key ru uname = Ok (RelationScopeWatcher.scope w +:+ "#" +:+ uname)) ∧
  (¬ valid_role (RelationEndpoint.RelationRole (endpoint ru)) →
   RelationUnit.WatchScope ru =
     Panic ("unknown RelationRole: " +:+ quote (RelationEndpoint.RelationRole (endpoint ru)))).
Proof.
  split.
  - intros w. unfold RelationUnit.WatchScope.
    destruct (counterpartRole _) as [role | v] eqn:Hc; [| done].
    cbn [outcome_bind]. intros [= <-]. split; [done |].
    exists role. split; [done |]. split; [done |].
    intros uname ep Hep Hrole. unfold RelationUnit.key. cbv zeta. rewrite Hep, Hrole.
    cbn [newRelationScopeWatcher RelationScopeWatcher.scope Join].
    by rewrite !app_assoc_string.
  - intros Hv. unfold RelationUnit.WatchScope, counterpartRole, valid_role in *.
    destruct (String.eqb_spec (RelationEndpoint.RelationRole (endpoint ru)) RoleProvider);
      [tauto |].
    destruct (String.eqb_spec (RelationEndpoint.RelationRole (endpoint ru)) RoleRequirer);
      [tauto |].
    destruct (String.eqb_spec (RelationEndpoint.RelationRole (endpoint ru)) RolePeer);
      [tauto |].
    reflexivity.
Qed.

End keys.

(** *** Joining and departing against the store *)

Section membership.
Context `{!Quoting}.

(** X11: when the unit's address cannot be resolved, or the key cannot
    be derived, [EnsureJoin] returns that error behind its context and
    writes nothing; [EnsureDepart] returns the error of the key as it is,
    without a context, and writes nothing either. *)
Theorem EnsureJoin_EnsureDepart_early_failure (ru : RelationUnit) (st : State.t) (e : error) :
  (Unit.PrivateAddress (unit ru) = Err e →
   RelationUnit.EnsureJoin ru st =
     (st, Some (RelationUnit.EnsureJoin_context ru +:+ ": " +:+ e))) ∧
  (RelationUnit.key ru (Unit.Name (unit ru)) = Err e →
   (∀ address, Unit.PrivateAddress (unit ru) = Ok address →
      RelationUnit.EnsureJoin ru st =
        (st, Some (RelationUnit.EnsureJoin_context ru +:+ ": " +:+ e))) ∧
   RelationUnit.EnsureDepart ru st = (st, Some e)).
Proof.
  split.
  - intros Ha. unfold RelationUnit.EnsureJoin. by rewrite Ha.
  - intros Hk. split.
    + intros address Ha. unfold RelationUnit.EnsureJoin. by rewrite Ha, Hk.
    + unfold RelationUnit.EnsureDepart. by rewrite Hk.
Qed.

Lemma State_eta (st : State.t) :
  {| State.relations := State.relations st;
     State.settings := State.settings st;
     State.relationRefs := State.relationRefs st |} = st.
Proof. by destruct st. Qed.

(** X12: [EnsureDepart] on a unit that has no marker returns no error and
    leaves the store as it is; so a second [EnsureDepart] after a
    successful one changes nothing. *)
Theorem EnsureDepart_idempotent (ru : RelationUnit) (st : State.t) (k : string) :
  RelationUnit.key ru (Unit.Name (unit ru)) = Ok k →
  (State.relationRefs st !! k = None → RelationUnit.EnsureDepart ru st = (st, None)) ∧
  (∀ st1, RelationUnit.EnsureDepart ru st = (st1, None) →
          State.relationRefs st1 !! k = None ∧
          RelationUnit.EnsureDepart ru st1 = (st1, None)).
Proof.
  intros Hk.
  assert (∀ s, State.relationRefs s !! k = None →
               RelationUnit.EnsureDepart ru s = (s, None)) as Habsent.
  { intros s Hnone. unfold RelationUnit.EnsureDepart. rewrite Hk, Run_remove.
    unfold State.with_relationRefs. rewrite delete_id by done. by rewrite State_eta. }
  split; [apply Habsent |].
  intros st1. unfold RelationUnit.EnsureDepart at 1. rewrite Hk, Run_remove.
  intros [= <-].
  assert (State.relationRefs
            (State.with_relationRefs (delete k (State.relationRefs st)) st) !! k = None)
    as Hnone by apply lookup_delete_eq.
  split; [exact Hnone | by apply Habsent].
Qed.

(** X13: what [EnsureJoin] and [EnsureDepart] leave alone.  Neither
    touches the relations collection, and neither touches a settings
    document or a marker at another key than the unit's own; and
    [EnsureDepart] touches no settings document at all. *)
Theorem EnsureJoin_EnsureDepart_frame (ru : RelationUnit) (st : State.t) :
  (∀ st1 err, RelationUnit.EnsureJoin ru st = (st1, err) →
     State.relations st1 = State.relations st ∧
     ∀ k', RelationUnit.key ru (Unit.Name (unit ru)) ≠ Ok k' →
           State.settings st1 !! k' = State.settings st !! k' ∧
           State.relationRefs st1 !! k' = State.relationRefs st !! k') ∧
  (∀ st1 err, RelationUnit.EnsureDepart ru st = (st1, err) →
     State.relations st1 = State.relations st ∧
     State.settings st1 = State.settings st ∧
     ∀ k', RelationUnit.key ru (Unit.Name (unit ru)) ≠ Ok k' →
           State.relationRefs st1 !! k' = State.relationRefs st !! k').
Proof.
  split.
  - intros st1 [e |] Hj.
    + apply EnsureJoin_error_inv in Hj as [-> _]. done.
    + apply EnsureJoin_ok_inv in Hj as (k & address & _ & Hk & Hrel & Hset & Hrefs).
      split; [done |]. intros k' Hk'. rewrite Hk in Hk'.
      assert (k ≠ k') as Hne by congruence.
      rewrite Hset, Hrefs, lookup_insert_ne by done. split; [done |].
      destruct (State.relationRefs st !! k); [done |]. by rewrite lookup_insert_ne.
  - intros st1 err. unfold RelationUnit.EnsureDepart.
    destruct (RelationUnit.key ru (Unit.Name (unit ru))) as [k | e].
    + rewrite Run_remove. intros [= <- _]. split; [done |]. split; [done |].
      intros k' Hk'. assert (k ≠ k') as Hne by congruence.
      cbn [State.with_relationRefs State.relationRefs]. by rewrite lookup_delete_ne.
    + by intros [= <- _].
Qed.

(** X14: settings are shared within a scope and not across scopes.  After
    a unit has joined, another relation unit of the same relation and
    scope reads the joined unit's settings by its name; a relation unit of
    the same relation in another scope, the role being of the enumeration,
    reads at another key, and finds nothing there when nothing was there
    before the join. *)
Theorem ReadSettings_scope (ru1 ru2 : RelationUnit) (st st1 : State.t) :
  relation ru2 = relation ru1 →
  RelationUnit.EnsureJoin ru1 st = (st1, None) →
  ∃ k1 address,
    RelationUnit.key ru1 (Unit.Name (unit ru1)) = Ok k1 ∧
    Unit.PrivateAddress (unit ru1) = Ok address ∧
    (scope ru2 = scope ru1 →
     RelationUnit.ReadSettings ru2 st1 (Unit.Name (unit ru1)) =
       Ok {[ "private-address" := VString address ]}) ∧
    (scope ru2 ≠ scope ru1 →
     ∀ ep k2,
       Relation.Endpoint (relation ru1)
         (default EmptyString (head (Split (Unit.Name (unit ru1)) "/"))) = Ok ep →
       valid_role (RelationEndpoint.RelationRole ep) →
       RelationUnit.key ru2 (Unit.Name (unit ru1)) = Ok k2 →
       k2 ≠ k1 ∧
       (State.settings st !! k2 = None →
        RelationUnit.ReadSettings ru2 st1 (Unit.Name (unit ru1)) =
          Err (RelationUnit.ReadSettings_context ru2 (Unit.Name (unit ru1)) +:+
               ": " +:+ "not found"))).
Proof.
  intros Hrel Hj.
  destruct (EnsureJoin_ok_inv _ _ _ Hj) as (k1 & address & Ha & Hk1 & _ & Hset & _).
  exists k1, address. split; [done |]. split; [done |]. split.
  - intros Hscope.
    assert (RelationUnit.key ru2 (Unit.Name (unit ru1)) = Ok k1) as Hk2.
    { rewrite <- Hk1. unfold RelationUnit.key. by rewrite Hrel, Hscope. }
    unfold RelationUnit.ReadSettings, readConfigNode. rewrite Hk2, Hset.
    cbn [State.settings]. by rewrite lookup_insert_eq.
  - intros Hscope ep k2 Hep Hv Hk2.
    assert (k2 ≠ k1) as Hne.
    { intros ->. apply key_Ok_inv in Hk1 as (ep1 & He1 & Hk1).
      apply key_Ok_inv in Hk2 as (ep2 & He2 & Hk2).
      rewrite Hrel in He2. rewrite Hep in He1, He2.
      injection He1 as <-. injection He2 as <-.
      rewrite Hk1 in Hk2. do 2 apply string_app_inj_r in Hk2. congruence. }
    split; [done |]. intros Hnone.
    unfold RelationUnit.ReadSettings. rewrite Hk2, Hset.
    by rewrite lookup_insert_ne, Hnone by done.
Qed.

End membership.

(** *** Refreshing a relation *)

(** X15: [Refresh] brings the [Relation] value back in line with the
    store: after any sequence of [Kill] and [Die] calls on a relation whose
    document is stored, it returns no error and [Life] then reports the
    stored life, which is not behind the life that was stored before the
    calls; when no document is stored at the relation's key it returns its
    error and leaves the value as it is. *)
Theorem Refresh_after_calls (cs : list life_call) (r : Relation) (st : State.t) :
  (∀ l, stored_Life st (Relation.String r) = Some l →
     ∃ l',
       (Relation.Refresh (run_life_calls cs r st).1 (run_life_calls cs r st).2).2 = None ∧
       Relation.Life (Relation.Refresh (run_life_calls cs r st).1
                        (run_life_calls cs r st).2).1 = l' ∧
       stored_Life (run_life_calls cs r st).2 (Relation.String r) = Some l' ∧
       Life_le l l') ∧
  (State.relations st !! Relation.String r = None →
   Relation.Refresh r st =
     (r, Some ("cannot refresh relation " +:+ Relation.String r +:+ ": " +:+ "not found"))).
Proof.
  split.
  - intros l Hl.
    destruct (stored_Life_monotone cs r st l Hl) as (l' & Hl' & Hle).
    exists l'.
    assert (Relation.String (run_life_calls cs r st).1 = Relation.String r) as Hkey.
    { clear. revert r st. induction cs as [| c cs IH]; intros r st; simpl; [done |].
      pose proof (run_life_call_key c r st) as Hk.
      destruct (run_life_call c r st) as [[r' st'] err]; simpl in *.
      by rewrite IH. }
    unfold Relation.Refresh, Relation.Life.
    unfold Relation.String in Hkey. rewrite Hkey.
    unfold stored_Life, Relation.String in Hl'.
    destruct (State.relations (run_life_calls cs r st).2 !! relationDoc.Key (doc r))
      as [d |] eqn:E; [| done].
    simpl in *. injection Hl' as Hl'. repeat split; [done | | done].
    unfold stored_Life, Relation.String. by rewrite E, <- Hl'.
  - intros Hnone. unfold Relation.Refresh, Relation.String in *. by rewrite Hnone.
Qed.

(** *** Keys of small relations *)

(** X16: the key of a relation with one endpoint is that endpoint's
    identifier, and the key of a relation with two endpoints is the two
    identifiers with a space in between, the one that is first in
    byte-wise order first, whichever way round the endpoints are given. *)
Theorem relationKey_one_two (a b : RelationEndpoint.t) :
  relationKey [a] = RelationEndpoint.String a ∧
  (String.le (RelationEndpoint.String a) (RelationEndpoint.String b) →
   relationKey [a; b] = RelationEndpoint.String a +:+ " " +:+ RelationEndpoint.String b ∧
   relationKey [b; a] = RelationEndpoint.String a +:+ " " +:+ RelationEndpoint.String b).
Proof.
  split; [reflexivity |].
  intros Hle. unfold relationKey. rewrite !relationKey_names. simpl.
  assert (Sorted String.le [RelationEndpoint.String a; RelationEndpoint.String b]) as Hs.
  { repeat constructor. exact Hle. }
  rewrite (sort_Strings_unique _ _ Hs (Permutation_refl _)).
  rewrite (sort_Strings_unique _ _ Hs (perm_swap _ _ _)).
  done.
Qed.

(** *** The workload process facade *)

Section facade.
Context `{!ProcessPackages} `{!Quoting} {S : Type} `{!UnitProcesses S}.

Lemma bulk_consistent_empty :
  bulk_consistent {| ProcessResults.Results := []; ProcessResults.Error := None |}.
Proof. split; [split; [constructor | done] | by left]. Qed.

Lemma bulk_consistent_ok (r : ProcessResults.t) (id : string) :
  bulk_consistent r →
  bulk_consistent
    {| ProcessResults.Results :=
         ProcessResults.Results r ++
         [{| ProcessResult.ID := id; ProcessResult.Error := None |}];
       ProcessResults.Error := ProcessResults.Error r |}.
Proof.
  intros [Hiff Hor]. split; [| done]. cbn. rewrite Forall_app, Hiff.
  split; [| tauto]. intros Hall. split; [done |]. by repeat constructor.
Qed.

Lemma bulk_consistent_failed (r : ProcessResults.t) (id : string) (e : APIError) :
  bulk_consistent
    {| ProcessResults.Results :=
         ProcessResults.Results r ++
         [{| ProcessResult.ID := id; ProcessResult.Error := Some e |}];
       ProcessResults.Error := Some (ServerError BulkFailure) |}.
Proof.
  split; [| by right]. cbn. rewrite Forall_app. split; [done |].
  intros [_ Hlast]. rewrite Forall_singleton in Hlast. discriminate Hlast.
Qed.

Lemma RegisterProcesses_loop_spec (processes : list APIProcess)
    (r : ProcessResults.t) (st : S) :
  (HookContextAPI.RegisterProcesses_loop processes r st).1 =
    foldl (fun s p => (Register (API2Proc p) s).1) st processes ∧
  ProcessResult.ID <$>
    ProcessResults.Results (HookContextAPI.RegisterProcesses_loop processes r st).2 =
    (ProcessResult.ID <$> ProcessResults.Results r) ++
    ((fun p => Info_ID (API2Proc p)) <$> processes) ∧
  (bulk_consistent r →
   bulk_consistent (HookContextAPI.RegisterProcesses_loop processes r st).2).
Proof.
  revert r st. induction processes as [| p rest IH]; intros r st; simpl.
  - by rewrite app_nil_r.
  - destruct (Register (API2Proc p) st) as [st1 [e |]] eqn:E; simpl.
    + destruct (IH {| ProcessResults.Results :=
                        ProcessResults.Results r ++
                        [{| ProcessResult.ID := Info_ID (API2Proc p);
                            ProcessResult.Error := Some (ServerError (Trace e)) |}];
                      ProcessResults.Error := Some (ServerError BulkFailure) |} st1)
        as (Hst & Hids & Hinv).
      split; [done |]. split.
      * rewrite Hids. cbn. by rewrite fmap_app, <- app_assoc.
      * intros _. apply Hinv, bulk_consistent_failed.
    + destruct (IH {| ProcessResults.Results :=
                        ProcessResults.Results r ++
                        [{| ProcessResult.ID := Info_ID (API2Proc p);
                            ProcessResult.Error := None |}];
                      ProcessResults.Error := ProcessResults.Error r |} st1)
        as (Hst & Hids & Hinv).
      split; [done |]. split.
      * rewrite Hids. cbn. by rewrite fmap_app, <- app_assoc.
      * intros Hr. by apply Hinv, bulk_consistent_ok.
Qed.

(** X17: [RegisterProcesses] never returns an error of its own.  It hands
    every process to [Register], in order and also after a failure, and
    returns one entry per process, in order, with the id of the process;
    the error of the whole is unset exactly when no entry has an error and
    is the bulk failure otherwise. *)
Theorem RegisterProcesses_bulk (processes : list APIProcess) (st : S) :
  (HookContextAPI.RegisterProcesses processes st).2 = None ∧
  (HookContextAPI.RegisterProcesses processes st).1.1 =
    foldl (fun s p => (Register (API2Proc p) s).1) st processes ∧
  ProcessResult.ID <$>
    ProcessResults.Results (HookContextAPI.RegisterProcesses processes st).1.2 =
    (fun p => Info_ID (API2Proc p)) <$> processes ∧
  bulk_consistent (HookContextAPI.RegisterProcesses processes st).1.2.
Proof.
  unfold HookContextAPI.RegisterProcesses. cbn [fst snd].
  destruct (RegisterProcesses_loop_spec processes
              {| ProcessResults.Results := []; ProcessResults.Error := None |} st)
    as (Hst & Hids & Hinv).
  split; [done |]. split; [done |]. split; [done |].
  apply Hinv, bulk_consistent_empty.
Qed.

Lemma SetProcessesStatus_loop_spec (args : list SetProcessStatusArg.t)
    (r : ProcessResults.t) (st : S) :
  (HookContextAPI.SetProcessesStatus_loop args r st).1 =
    foldl (fun s arg =>
             (SetStatus (SetProcessStatusArg.ID arg)
                        (APIStatus2Status (SetProcessStatusArg.Status arg)) s).1) st args ∧
  ProcessResult.ID <$>
    ProcessResults.Results (HookContextAPI.SetProcessesStatus_loop args r st).2 =
    (ProcessResult.ID <$> ProcessResults.Results r) ++ (SetProcessStatusArg.ID <$> args) ∧
  (bulk_consistent r →
   bulk_consistent (HookContextAPI.SetProcessesStatus_loop args r st).2).
Proof.
  revert r st. induction args as [| arg rest IH]; intros r st; simpl.
  - by rewrite app_nil_r.
  - destruct (SetStatus _ _ st) as [st1 [e |]] eqn:E; simpl.
    + destruct (IH {| ProcessResults.Results :=
                        ProcessResults.Results r ++
                        [{| ProcessResult.ID := SetProcessStatusArg.ID arg;
                            ProcessResult.Error := Some (ServerError e) |}];
                      ProcessResults.Error := Some (ServerError BulkFailure) |} st1)
        as (Hst & Hids & Hinv).
      split; [done |]. split.
      * rewrite Hids. cbn. by rewrite fmap_app, <- app_assoc.
      * intros _. apply Hinv, bulk_consistent_failed.
    + destruct (IH {| ProcessResults.Results :=
                        ProcessResults.Results r ++
                        [{| ProcessResult.ID := SetProcessStatusArg.ID arg;
                            ProcessResult.Error := None |}];
                      ProcessResults.Error := ProcessResults.Error r |} st1)
        as (Hst & Hids & Hinv).
      split; [done |]. split.
      * rewrite Hids. cbn. by rewrite fmap_app, <- app_assoc.
      * intros Hr. by apply Hinv, bulk_consistent_ok.
Qed.

(** X18: [SetProcessesStatus] never returns an error of its own.  It
    hands every argument to [SetStatus], in order and also after a
    failure, and returns one entry per argument, in order, with the id of
    the argument; the error of the whole is unset exactly when no entry
    has an error and is the bulk failure otherwise. *)
Theorem SetProcessesStatus_bulk (args : list SetProcessStatusArg.t) (st : S) :
  (HookContextAPI.SetProcessesStatus args st).2 = None ∧
  (HookContextAPI.SetProcessesStatus args st).1.1 =
    foldl (fun s arg =>
             (SetStatus (SetProcessStatusArg.ID arg)
                        (APIStatus2Status (SetProcessStatusArg.Status arg)) s).1) st args ∧
  ProcessResult.ID <$>
    ProcessResults.Results (HookContextAPI.SetProcessesStatus args st).1.2 =
    SetProcessStatusArg.ID <$> args ∧
  bulk_consistent (HookContextAPI.SetProcessesStatus args st).1.2.
Proof.
  unfold HookContextAPI.SetProcessesStatus. cbn [fst snd].
  destruct (SetProcessesStatus_loop_spec args
              {| ProcessResults.Results := []; ProcessResults.Error := None |} st)
    as (Hst & Hids & Hinv).
  split; [done |]. split; [done |]. split; [done |].
  apply Hinv, bulk_consistent_empty.
Qed.

Lemma UnregisterProcesses_loop_spec (ids : list string)
    (r : ProcessResults.t) (st : S) :
  (HookContextAPI.UnregisterProcesses_loop ids r st).1 =
    foldl (fun s id => (Unregister id s).1) st ids ∧
  ProcessResult.ID <$>
    ProcessResults.Results (HookContextAPI.UnregisterProcesses_loop ids r st).2 =
    (ProcessResult.ID <$> ProcessResults.Results r) ++ ids ∧
  (bulk_consistent r →
   bulk_consistent (HookContextAPI.UnregisterProcesses_loop ids r st).2).
Proof.
  revert r st. induction ids as [| id rest IH]; intros r st; simpl.
  - by rewrite app_nil_r.
  - destruct (Unregister id st) as [st1 [e |]] eqn:E; simpl.
    + destruct (IH {| ProcessResults.Results :=
                        ProcessResults.Results r ++
                        [{| ProcessResult.ID := id;
                            ProcessResult.Error := Some (ServerError (Trace e)) |}];
                      ProcessResults.Error := Some (ServerError BulkFailure) |} st1)
        as (Hst & Hids & Hinv).
      split; [done |]. split.
      * rewrite Hids. cbn. by rewrite fmap_app, <- app_assoc.
      * intros _. apply Hinv, bulk_consistent_failed.
    + destruct (IH {| ProcessResults.Results :=
                        ProcessResults.Results r ++
                        [{| ProcessResult.ID := id; ProcessResult.Error := None |}];
                      ProcessResults.Error := ProcessResults.Error r |} st1)
        as (Hst & Hids & Hinv).
      split; [done |]. split.
      * rewrite Hids. cbn. by rewrite fmap_app, <- app_assoc.
      * intros Hr. by apply Hinv, bulk_consistent_ok.
Qed.

(** X19: [UnregisterProcesses] never returns an error of its own.  It
    hands every id to [Unregister], in order and also after a failure, and
    returns one entry per id, in order; the error of the whole is unset
    exactly when no entry has an error and is the bulk failure
    otherwise. *)
Theorem UnregisterProcesses_bulk (IDs : list string) (st : S) :
  (HookContextAPI.UnregisterProcesses IDs st).2 = None ∧
  (HookContextAPI.UnregisterProcesses IDs st).1.1 =
    foldl (fun s id => (Unregister id s).1) st IDs ∧
  ProcessResult.ID <$>
    ProcessResults.Results (HookContextAPI.UnregisterProcesses IDs st).1.2 = IDs ∧
  bulk_consistent (HookContextAPI.UnregisterProcesses IDs st).1.2.
Proof.
  unfold HookContextAPI.UnregisterProcesses. cbn [fst snd].
  destruct (UnregisterProcesses_loop_spec IDs
              {| ProcessResults.Results := []; ProcessResults.Error := None |} st)
    as (Hst & Hids & Hinv).
  split; [done |]. split; [done |]. split; [done |].
  apply Hinv, bulk_consistent_empty.
Qed.

End facade.

Section listing.
Context `{!ProcessPackages} `{!Quoting} {S : Type} `{!UnitProcesses S}.

Lemma ListProcesses_find_spec (procs : list Info) (id : string)
    (res : ListProcessResult.t) :
  (∃ pre proc post,
     procs = pre ++ proc :: post ∧ Info_ID proc = id ∧
     Forall (fun q => Info_ID q ≠ id) pre ∧
     HookContextAPI.ListProcesses_find procs id res =
       ({| ListProcessResult.ID := ListProcessResult.ID res;
           ListProcessResult.Info := Some (Proc2api proc);
           ListProcessResult.Error := ListProcessResult.Error res |}, true)) ∨
  (Forall (fun q => Info_ID q ≠ id) procs ∧
   HookContextAPI.ListProcesses_find procs id res = (res, false)).
Proof.
  induction procs as [| proc rest IH]; simpl.
  - right. by split; [constructor |].
  - destruct (String.eqb_spec id (Info_ID proc)) as [-> | Hne].
    + left. exists [], proc, rest. by repeat split.
    + destruct IH as [(pre & q & post & -> & Hq & Hpre & Hfind) | [Hall Hfind]].
      * left. exists (proc :: pre), q, post. repeat split; [done | | done].
        constructor; [congruence | done].
      * right. split; [| done]. constructor; [congruence | done].
Qed.

Lemma ListProcesses_ids (procs : list Info) (acc : list string) :
  foldl (fun ids proc => ids ++ [Info_ID proc]) acc procs = acc ++ (Info_ID <$> procs).
Proof.
  revert acc. induction procs as [| proc rest IH]; intros acc; simpl.
  - by rewrite app_nil_r.
  - by rewrite IH, <- app_assoc.
Qed.

Lemma ListProcesses_loop_spec (ids : list string) (procs : list Info)
    (r : ListProcessesResults.t) :
  ListProcessResult.ID <$>
    ListProcessesResults.Results (HookContextAPI.ListProcesses_loop ids procs r) =
    (ListProcessResult.ID <$> ListProcessesResults.Results r) ++ ids ∧
  (Forall (list_entry procs) (ListProcessesResults.Results r) →
   Forall (list_entry procs)
     (ListProcessesResults.Results (HookContextAPI.ListProcesses_loop ids procs r))) ∧
  (ListProcessesResults.Error (HookContextAPI.ListProcesses_loop ids procs r) = None →
   ListProcessesResults.Error r = None ∧
   Forall (fun id => ∃ p, p ∈ procs ∧ Info_ID p = id) ids) ∧
  (ListProcessesResults.Error r = None →
   Forall (fun id => ∃ p, p ∈ procs ∧ Info_ID p = id) ids →
   ListProcessesResults.Error (HookContextAPI.ListProcesses_loop ids procs r) = None) ∧
  (ListProcessesResults.Error r = None ∨
   ListProcessesResults.Error r = Some (ServerError BulkFailure) →
   ListProcessesResults.Error (HookContextAPI.ListProcesses_loop ids procs r) = None ∨
   ListProcessesResults.Error (HookContextAPI.ListProcesses_loop ids procs r) =
     Some (ServerError BulkFailure)).
Proof.
  revert r. induction ids as [| id rest IH]; intros r; simpl.
  - rewrite app_nil_r. repeat split; auto.
  - destruct (ListProcesses_find_spec procs id
                {| ListProcessResult.ID := id; ListProcessResult.Info := None;
                   ListProcessResult.Error := None |})
      as [(pre & proc & post & Hprocs & Hid & Hpre & ->) | [Hall ->]]; cbn [negb].
    + match goal with |- context [HookContextAPI.ListProcesses_loop rest procs ?r'] =>
        destruct (IH r') as (Hids & Hentries & Hnone & Hsome & Hor) end.
      cbn in *. split; [by rewrite Hids, fmap_app, <- app_assoc |].
      split; [| split; [| split]].
      * intros Hr. apply Hentries, Forall_app. split; [done |].
        apply Forall_singleton. left. split; [done |].
        exists pre, proc, post. by repeat split.
      * intros Hout. destruct (Hnone Hout) as [Hr Hrest]. split; [done |].
        constructor; [| done]. exists proc. split; [| done].
        rewrite Hprocs. apply elem_of_app. right. by left.
      * intros Hr Hids'. apply Forall_cons in Hids' as [_ Hrest]. by apply Hsome.
      * done.
    + match goal with |- context [HookContextAPI.ListProcesses_loop rest procs ?r'] =>
        destruct (IH r') as (Hids & Hentries & Hnone & Hsome & Hor) end.
      cbn in *. split; [by rewrite Hids, fmap_app, <- app_assoc |].
      split; [| split; [| split]].
      * intros Hr. apply Hentries, Forall_app. split; [done |].
        apply Forall_singleton. right. by repeat split.
      * intros Hout. by destruct (Hnone Hout) as [[=] _].
      * intros _ Hids'. apply Forall_cons in Hids' as [(p & Hp & Hpid) _].
        exfalso. rewrite Forall_forall in Hall. by apply (Hall p).
      * intros _. apply Hor. by right.
Qed.

(** X20: [ListProcesses] never returns an error of its own.  When [List]
    fails, it returns no entries and the error of [List] as the error of
    the whole.  When [List] returns processes, it returns one entry per
    requested id, in order, or one per listed process when no id was
    requested; an entry carries the first listed process with its id, or
    the not-found error when no listed process has that id; the error of
    the whole is unset exactly when every entry's id is the id of a listed
    process, which is always so when no id was requested, and is the bulk
    failure otherwise. *)
Theorem ListProcesses_results (IDs : list string) (st : S) :
  (∀ st' e, List IDs st = (st', Err e) →
     HookContextAPI.ListProcesses IDs st =
       (st', {| ListProcessesResults.Results := [];
                ListProcessesResults.Error := Some (ServerError e) |}, None)) ∧
  (∀ st' procs, List IDs st = (st', Ok procs) →
     ∃ r, HookContextAPI.ListProcesses IDs st = (st', r, None) ∧
       ListProcessResult.ID <$> ListProcessesResults.Results r =
         match IDs with [] => Info_ID <$> procs | _ => IDs end ∧
       Forall (list_entry procs) (ListProcessesResults.Results r) ∧
       (ListProcessesResults.Error r = None ↔
        Forall (fun id => ∃ p, p ∈ procs ∧ Info_ID p = id)
               (ListProcessResult.ID <$> ListProcessesResults.Results r)) ∧
       (ListProcessesResults.Error r = None ∨
        ListProcessesResults.Error r = Some (ServerError BulkFailure)) ∧
       (IDs = [] → ListProcessesResults.Error r = None)).
Proof.
  split.
  - intros st' e HL. unfold HookContextAPI.ListProcesses. cbv zeta. by rewrite HL.
  - intros st' procs HL. unfold HookContextAPI.ListProcesses. cbv zeta. rewrite HL.
    set (r0 := {| ListProcessesResults.Results := [];
                  ListProcessesResults.Error := None |}).
    set (ids := match IDs with
                | [] => foldl (fun ids proc => ids ++ [Info_ID proc]) IDs procs
                | _ => IDs
                end).
    assert (ids = match IDs with [] => Info_ID <$> procs | _ => IDs end) as Hids_eq.
    { subst ids. destruct IDs; [| done]. by rewrite ListProcesses_ids. }
    destruct (ListProcesses_loop_spec ids procs r0) as (Hids & Hentries & Hnone & Hsome & Hor).
    exists (HookContextAPI.ListProcesses_loop ids procs r0).
    cbn in Hids. split; [done |]. split; [by rewrite Hids, <- Hids_eq |].
    split; [by apply Hentries; constructor |].
    split; [| split].
    + rewrite Hids. split; [by intros [_ ?]%Hnone | by apply Hsome].
    + apply Hor. by left.
    + intros ->. apply Hsome; [done |]. rewrite Hids_eq.
      apply Forall_fmap, Forall_forall. intros p Hp. by exists p.
Qed.

End listing.

(** *** The further properties at the samples *)

Lemma CanRelateTo_symmetric_witness :
  @RelationEndpoint.CanRelateTo verbatim Sample.wordpress Sample.logging = Return true ∧
  @RelationEndpoint.CanRelateTo verbatim Sample.logging Sample.wordpress = Return true.
Proof.
  assert (@RelationEndpoint.CanRelateTo verbatim Sample.wordpress Sample.logging = Return true)
    as Hab by reflexivity.
  split; [exact Hab |].
  exact (proj1 (@CanRelateTo_symmetric verbatim Sample.wordpress Sample.logging) Hab).
Defined.

Lemma Endpoint_first_match_witness :
  Forall (fun e => RelationEndpoint.ServiceName e ≠ "mysql")
         (relationDoc.Endpoints (doc Sample.rel)) ∧
  @Relation.Endpoint verbatim Sample.rel "mysql" =
    Err ("service " +:+ @quote verbatim "mysql" +:+ " is not a member of " +:+
         @quote verbatim (Relation.String Sample.rel)).
Proof.
  assert (Forall (fun e => RelationEndpoint.ServiceName e ≠ "mysql")
                 (relationDoc.Endpoints (doc Sample.rel))) as Hall
    by (repeat constructor; discriminate).
  split; [exact Hall |].
  exact (proj2 (proj1 (proj2 (@Endpoint_first_match verbatim Sample.rel "mysql"))) Hall).
Defined.

Lemma RelatedEndpoints_sound_complete_witness :
  @Relation.RelatedEndpoints verbatim Sample.rel "wordpress" = Return (Ok [Sample.logging]) ∧
  [Sample.logging] ≠ [].
Proof.
  assert (@Relation.RelatedEndpoints verbatim Sample.rel "wordpress" =
            Return (Ok [Sample.logging])) as Hre by reflexivity.
  split; [exact Hre |].
  exact (proj1 (@RelatedEndpoints_sound_complete verbatim Sample.rel "wordpress" _ Hre)).
Defined.

Lemma RelatedEndpoints_failures_witness :
  @Relation.RelatedEndpoints verbatim Sample.rel "mysql" =
    Return (Err ("service " +:+ @quote verbatim "mysql" +:+ " is not a member of " +:+
                 @quote verbatim (Relation.String Sample.rel))).
Proof.
  exact (proj1 (@RelatedEndpoints_failures verbatim Sample.rel "mysql") _ eq_refl).
Defined.

Lemma RelatedEndpoints_pair_witness :
  @Relation.RelatedEndpoints verbatim Sample.rel "wordpress" = Return (Ok [Sample.logging]) ∧
  @Relation.RelatedEndpoints verbatim Sample.rel "logging" = Return (Ok [Sample.wordpress]).
Proof.
  apply (@RelatedEndpoints_pair verbatim Sample.rel Sample.wordpress Sample.logging);
    [reflexivity | reflexivity | discriminate].
Defined.

Lemma Unit_result_witness :
  @Relation.Unit verbatim Sample.rel Sample.logging0 = Ok Sample.ru ∧
  RelationEndpoint.ServiceName (endpoint Sample.ru) = Unit.Service Sample.logging0 ∧
  endpoint Sample.ru ∈ relationDoc.Endpoints (doc Sample.rel).
Proof.
  assert (@Relation.Unit verbatim Sample.rel Sample.logging0 = Ok Sample.ru) as Hu
    by reflexivity.
  split; [exact Hu |].
  destruct (proj2 (@Unit_result verbatim Sample.rel Sample.logging0) _ Hu)
    as (_ & _ & _ & Hs & Hin).
  exact (conj Hs Hin).
Defined.

Lemma Unit_scope_shared_witness :
  scope {| relation := Sample.rel; unit := Sample.wordpress0;
           endpoint := Sample.wordpress; scope := "r#7#wordpress/0" |} =
  scope Sample.ru.
Proof.
  apply (proj1 (@Unit_scope_shared verbatim Sample.rel Sample.wordpress0 Sample.logging0
                  _ _ eq_refl eq_refl));
    [reflexivity | reflexivity | reflexivity | discriminate | reflexivity].
Defined.

Lemma key_injective_witness :
  @RelationUnit.key verbatim Sample.ru "logging/0" =
    Ok "r#7#wordpress/0#requirer#logging/0" ∧
  "logging/0" = "logging/0".
Proof.
  assert (@RelationUnit.key verbatim Sample.ru "logging/0" =
            Ok "r#7#wordpress/0#requirer#logging/0") as Hk by reflexivity.
  split; [exact Hk |].
  exact (proj1 (@key_injective verbatim Sample.ru Sample.ru "logging/0" "logging/0" _
                  Sample.logging Sample.logging eq_refl eq_refl eq_refl eq_refl Hk Hk)).
Defined.

Lemma WatchScope_covers_counterparts_witness :
  @RelationUnit.WatchScope verbatim Sample.ru =
    Return (newRelationScopeWatcher "r#7#wordpress/0#provider" "logging/0") ∧
  @RelationUnit.key verbatim Sample.ru "wordpress/0" =
    Ok ("r#7#wordpress/0#provider" +:+ "#" +:+ "wordpress/0").
Proof.
  assert (@RelationUnit.WatchScope verbatim Sample.ru =
            Return (newRelationScopeWatcher "r#7#wordpress/0#provider" "logging/0")) as Hw
    by reflexivity.
  split; [exact Hw |].
  destruct (proj1 (@WatchScope_covers_counterparts verbatim Sample.ru) _ Hw)
    as (_ & role & Hrole & _ & Hkeys).
  injection Hrole as <-.
  exact (Hkeys "wordpress/0" Sample.wordpress eq_refl eq_refl).
Defined.

Lemma EnsureJoin_EnsureDepart_early_failure_witness :
  @RelationUnit.EnsureDepart verbatim
    {| relation := Sample.ring; unit := Sample.logging0;
       endpoint := Sample.riak; scope := "r#8" |} Sample.st =
  (Sample.st,
   Some ("service " +:+ @quote verbatim "logging" +:+ " is not a member of " +:+
         @quote verbatim (Relation.String Sample.ring))).
Proof.
  exact (proj2 (proj2 (@EnsureJoin_EnsureDepart_early_failure verbatim
                         {| relation := Sample.ring; unit := Sample.logging0;
                            endpoint := Sample.riak; scope := "r#8" |}
                         Sample.st _) eq_refl)).
Defined.

Lemma EnsureDepart_idempotent_witness :
  @RelationUnit.key verbatim Sample.ru (Unit.Name (unit Sample.ru)) =
    Ok "r#7#wordpress/0#requirer#logging/0" ∧
  @RelationUnit.EnsureDepart verbatim Sample.ru Sample.st = (Sample.st, None).
Proof.
  assert (@RelationUnit.key verbatim Sample.ru (Unit.Name (unit Sample.ru)) =
            Ok "r#7#wordpress/0#requirer#logging/0") as Hk by reflexivity.
  split; [exact Hk |].
  exact (proj1 (@EnsureDepart_idempotent verbatim Sample.ru Sample.st _ Hk) eq_refl).
Defined.

Lemma EnsureJoin_EnsureDepart_frame_witness :
  State.relations (@RelationUnit.EnsureJoin verbatim Sample.ru Sample.st).1 =
  State.relations Sample.st.
Proof.
  exact (proj1 (proj1 (@EnsureJoin_EnsureDepart_frame verbatim Sample.ru Sample.st)
                  _ _ (surjective_pairing _))).
Defined.

Lemma ReadSettings_scope_witness :
  let reader := {| relation := Sample.rel; unit := Sample.wordpress0;
                   endpoint := Sample.wordpress; scope := "r#7#wordpress/0" |} in
  let st1 := (@RelationUnit.EnsureJoin verbatim Sample.ru Sample.st).1 in
  @RelationUnit.EnsureJoin verbatim Sample.ru Sample.st = (st1, None) ∧
  @RelationUnit.ReadSettings verbatim reader st1 "logging/0" =
    Ok {[ "private-address" := VString "10.0.0.1" ]}.
Proof.
  intros reader st1.
  assert (@RelationUnit.EnsureJoin verbatim Sample.ru Sample.st = (st1, None)) as Hj
    by (vm_compute; reflexivity).
  split; [exact Hj |].
  destruct (@ReadSettings_scope verbatim Sample.ru reader Sample.st st1 eq_refl Hj)
    as (k1 & address & _ & Ha & Hsame & _).
  injection Ha as <-. exact (Hsame eq_refl).
Defined.

Lemma Refresh_after_calls_witness :
  let '(r, st) := run_life_calls [CallDie; CallKill] Sample.rel Sample.st in
  Relation.Life r = Dying ∧ Relation.Life (Relation.Refresh r st).1 = Dead.
Proof.
  destruct (proj1 (Refresh_after_calls [CallDie; CallKill] Sample.rel Sample.st) Alive eq_refl)
    as (l' & _ & Hlife & Hstored & _).
  assert (l' = Dead) as -> by (vm_compute in Hstored; congruence).
  split; [reflexivity | exact Hlife].
Defined.

Lemma relationKey_one_two_witness :
  String.le (RelationEndpoint.String Sample.logging)
            (RelationEndpoint.String Sample.wordpress) ∧
  relationKey [Sample.wordpress; Sample.logging] =
    RelationEndpoint.String Sample.logging +:+ " " +:+
    RelationEndpoint.String Sample.wordpress.
Proof.
  assert (String.le (RelationEndpoint.String Sample.logging)
                    (RelationEndpoint.String Sample.wordpress)) as Hle by exact I.
  split; [exact Hle |].
  exact (proj2 (proj2 (relationKey_one_two Sample.logging Sample.wordpress) Hle)).
Defined.

Lemma ListProcesses_results_witness :
  let st := [("web", EmptyString); ("db", "1")] in
  @List SampleProcesses.packages _ SampleProcesses.state ["web"; "cache"] st =
    (st, Ok [("web", EmptyString)]) ∧
  ∃ r, @HookContextAPI.ListProcesses SampleProcesses.packages verbatim _
         SampleProcesses.state ["web"; "cache"] st = (st, r, None) ∧
       ListProcessResult.ID <$> ListProcessesResults.Results r = ["web"; "cache"] ∧
       ListProcessesResults.Error r ≠ None.
Proof.
  intros st.
  assert (@List SampleProcesses.packages _ SampleProcesses.state ["web"; "cache"] st =
            (st, Ok [("web", EmptyString)])) as HL by reflexivity.
  split; [exact HL |].
  destruct (proj2 (@ListProcesses_results SampleProcesses.packages verbatim _
                     SampleProcesses.state ["web"; "cache"] st) _ _ HL)
    as (r & Hr & Hids & _ & Hiff & _).
  exists r. split; [exact Hr |]. split; [exact Hids |].
  intros Hnone. apply Hiff in Hnone. rewrite Hids in Hnone.
  apply Forall_cons in Hnone as [_ Hcache].
  apply Forall_cons in Hcache as [(p & Hp & Hpid) _].
  apply list_elem_of_singleton in Hp as ->. discriminate Hpid.
Defined.
